(** * dsfr-mcp: the bounded cache and the query engines

    A shallow embedding of [src/cache.ts] (class [LRUCache]) and of
    [src/core.ts] ([readFileWithCache], [getComponentDoc],
    [searchComponents], [searchIcons], [getColorTokens]), followed by the
    properties of the design document that are established on it.

    Conventions.
    - A JavaScript [Map] is an insertion-ordered association list with
      pairwise distinct keys; the head of the list is the oldest insertion.
    - [T | undefined] is [option T]; keys and values themselves range over
      defined values, as in the only instantiation of the repository,
      [LRUCache<string, string>].
    - A JavaScript string is a [string]: one [ascii] stands for one code
      unit.  The message templates are copied from the source; a character
      of theirs outside ASCII is held as the bytes of its UTF-8 encoding.
    - The builtins whose definition is not part of the repository and
      depends on the host ([String.prototype.toLowerCase],
      [String.prototype.localeCompare], [path.join], the file system) are
      parameters of the development. *)

From Stdlib Require Import List ZArith Lia Bool String Ascii.
From Stdlib Require Import Permutation Sorted DecimalString.
Import ListNotations.

Local Open Scope Z_scope.

Set Default Proof Using "Type".

(** ** The bounded cache ([src/cache.ts]) *)

Module LRUCache.

Section Generic.

Variables K V : Type.
Variable K_eq_dec : forall a b : K, {a = b} + {a <> b}.

(** *** The underlying [Map<K, V>] *)

Definition JSMap : Type := list (K * V).

(** [Map.prototype.get]. *)
Fixpoint Map_get (m : JSMap) (key : K) : option V :=
  match m with
  | [] => None
  | (k, v) :: m' => if K_eq_dec k key then Some v else Map_get m' key
  end.

(** [Map.prototype.has]. *)
Definition Map_has (m : JSMap) (key : K) : bool :=
  match Map_get m key with Some _ => true | None => false end.

(** [Map.prototype.delete]: the entry leaves the insertion order. *)
Fixpoint Map_delete (m : JSMap) (key : K) : JSMap :=
  match m with
  | [] => []
  | (k, v) :: m' =>
      if K_eq_dec k key then m' else (k, v) :: Map_delete m' key
  end.

(** [Map.prototype.set]: an existing key keeps its position and takes
    the new value, a new key goes to the end of the insertion order. *)
Fixpoint Map_set (m : JSMap) (key : K) (value : V) : JSMap :=
  match m with
  | [] => [(key, value)]
  | (k, v) :: m' =>
      if K_eq_dec k key then (k, value) :: m'
      else (k, v) :: Map_set m' key value
  end.

(** [map.keys().next().value]: the first key in insertion order, or
    [undefined] for an empty map. *)
Definition Map_firstKey (m : JSMap) : option K :=
  match m with
  | [] => None
  | (k, _) :: _ => Some k
  end.

Definition Map_size (m : JSMap) : Z := Z.of_nat (List.length m).

(** *** class LRUCache *)

Record t : Type := mk { map : JSMap; maxSize : Z }.

(** The constructor: [None] stands for the thrown [Error]. *)
Definition new (maxSize : Z) : option t :=
  if maxSize <? 1 then None else Some (mk [] maxSize).

Definition get (key : K) (c : t) : option V * t :=
  match Map_get (map c) key with
  | None => (None, c)
  | Some value =>
      (Some value,
       mk (Map_set (Map_delete (map c) key) key value) (maxSize c))
  end.

Definition set (key : K) (value : V) (c : t) : t :=
  let m1 := if Map_has (map c) key then Map_delete (map c) key else map c in
  let m2 := Map_set m1 key value in
  let m3 :=
    if Map_size m2 >? maxSize c then
      match Map_firstKey m2 with
      | Some lruKey => Map_delete m2 lruKey
      | None => m2
      end
    else m2 in
  mk m3 (maxSize c).

Definition size (c : t) : Z := Map_size (map c).

Definition clear (c : t) : t := mk [] (maxSize c).

(** *** Sequences of operations *)

Inductive op : Type :=
| Get (key : K)
| Set_ (key : K) (value : V)
| Clear.

Definition step (c : t) (o : op) : t :=
  match o with
  | Get key => snd (get key c)
  | Set_ key value => set key value c
  | Clear => clear c
  end.

Definition run (ops : list op) (c : t) : t := fold_left step ops c.

(** Insertion of a list of bindings, in order, with [set] only. *)
Definition setAll (kvs : list (K * V)) (c : t) : t :=
  fold_left (fun c kv => set (fst kv) (snd kv) c) kvs c.

Definition keys (m : JSMap) : list K := List.map fst m.

(** The representation invariant: distinct keys (it is a [Map]) and the
    capacity bound. *)
Definition wf (c : t) : Prop :=
  NoDup (keys (map c)) /\ Map_size (map c) <= maxSize c /\ 1 <= maxSize c.

(** *** Lemmas on the map operations *)

Lemma Map_get_None (m : JSMap) (key : K) :
  Map_get m key = None <-> ~ In key (keys m).
Proof.
  induction m as [|[k v] m IH]; simpl.
  - tauto.
  - destruct (K_eq_dec k key) as [->|Hne].
    + split; [discriminate | intros H; elim H; now left].
    + rewrite IH. split; [intros H [E|I]; [congruence | tauto] | tauto].
Qed.

Lemma Map_get_In (m : JSMap) (key : K) (v : V) :
  NoDup (keys m) -> In (key, v) m -> Map_get m key = Some v.
Proof.
  induction m as [|[k w] m IH]; simpl; [tauto|].
  intros Hnd [E|I].
  - inversion E; subst. destruct (K_eq_dec key key); congruence.
  - inversion Hnd as [|? ? Hnotin Hnd']; subst.
    destruct (K_eq_dec k key) as [->|Hne].
    + elim Hnotin. change key with (fst (key, v)). now apply in_map.
    + now apply IH.
Qed.

Lemma Map_has_false (m : JSMap) (key : K) :
  Map_has m key = false <-> ~ In key (keys m).
Proof.
  unfold Map_has. rewrite <- Map_get_None.
  destruct (Map_get m key); split; congruence.
Qed.

Lemma Map_set_fresh (m : JSMap) (key : K) (value : V) :
  ~ In key (keys m) -> Map_set m key value = m ++ [(key, value)].
Proof.
  induction m as [|[k v] m IH]; simpl; [reflexivity|].
  intros H. destruct (K_eq_dec k key) as [->|Hne]; [tauto|].
  rewrite IH; tauto.
Qed.

Lemma Map_delete_absent (m : JSMap) (key : K) :
  ~ In key (keys m) -> Map_delete m key = m.
Proof.
  induction m as [|[k v] m IH]; simpl; [reflexivity|].
  intros H. destruct (K_eq_dec k key) as [->|Hne]; [tauto|].
  rewrite IH; tauto.
Qed.

Lemma Map_delete_keys_incl (m : JSMap) (key k : K) :
  In k (keys (Map_delete m key)) -> In k (keys m).
Proof.
  induction m as [|[k0 v] m IH]; simpl; [tauto|].
  destruct (K_eq_dec k0 key); simpl; tauto.
Qed.

Lemma Map_delete_NoDup (m : JSMap) (key : K) :
  NoDup (keys m) -> NoDup (keys (Map_delete m key)).
Proof.
  induction m as [|[k v] m IH]; simpl; [auto|].
  intros H; inversion H as [|? ? Hnotin Hnd]; subst.
  destruct (K_eq_dec k key); [assumption|].
  simpl. constructor; [|auto].
  intros I. apply Hnotin. eapply Map_delete_keys_incl; eauto.
Qed.

Lemma Map_delete_not_In (m : JSMap) (key : K) :
  NoDup (keys m) -> ~ In key (keys (Map_delete m key)).
Proof.
  induction m as [|[k v] m IH]; simpl; [tauto|].
  intros H; inversion H as [|? ? Hnotin Hnd]; subst.
  destruct (K_eq_dec k key) as [->|Hne]; [assumption|].
  simpl. intros [E|I]; [congruence | now apply IH].
Qed.

Lemma Map_delete_length (m : JSMap) (key : K) :
  (List.length (Map_delete m key) <= List.length m)%nat.
Proof.
  induction m as [|[k v] m IH]; simpl; [lia|].
  destruct (K_eq_dec k key); simpl; lia.
Qed.

Lemma Map_delete_length_In (m : JSMap) (key : K) :
  In key (keys m) ->
  S (List.length (Map_delete m key)) = List.length m.
Proof.
  induction m as [|[k v] m IH]; simpl; [tauto|].
  destruct (K_eq_dec k key) as [->|Hne]; [reflexivity|].
  intros [E|I]; [congruence|]. simpl. now rewrite IH.
Qed.

Lemma Map_get_delete_other (m : JSMap) (key k : K) :
  k <> key -> Map_get (Map_delete m key) k = Map_get m k.
Proof.
  intros Hne. induction m as [|[k0 v] m IH]; simpl; [reflexivity|].
  destruct (K_eq_dec k0 key) as [->|Hne0].
  - destruct (K_eq_dec key k); congruence.
  - simpl. destruct (K_eq_dec k0 k); auto.
Qed.

Lemma Map_get_app (m1 m2 : JSMap) (k : K) :
  Map_get (m1 ++ m2) k =
  match Map_get m1 k with Some v => Some v | None => Map_get m2 k end.
Proof.
  induction m1 as [|[k0 v] m1 IH]; simpl; [reflexivity|].
  destruct (K_eq_dec k0 k); auto.
Qed.

Lemma keys_app (m1 m2 : JSMap) : keys (m1 ++ m2) = keys m1 ++ keys m2.
Proof. apply map_app. Qed.

(** *** The two methods in closed form, on a well-formed map *)

Lemma Map_first_delete (m : JSMap) :
  match Map_firstKey m with
  | Some lruKey => Map_delete m lruKey
  | None => m
  end = tl m.
Proof.
  destruct m as [|[k v] m]; simpl; [reflexivity|].
  now destruct (K_eq_dec k k).
Qed.

Lemma set_map (key : K) (value : V) (c : t) :
  NoDup (keys (map c)) ->
  map (set key value c) =
  let m2 := Map_delete (map c) key ++ [(key, value)] in
  if Map_size m2 >? maxSize c then tl m2 else m2.
Proof.
  intros Hnd. unfold set. cbn [map].
  rewrite Map_first_delete.
  assert (E : Map_set (if Map_has (map c) key
                       then Map_delete (map c) key else map c) key value
              = Map_delete (map c) key ++ [(key, value)]).
  { destruct (Map_has (map c) key) eqn:Hhas.
    - apply Map_set_fresh. now apply Map_delete_not_In.
    - apply Map_has_false in Hhas.
      rewrite (Map_delete_absent _ _ Hhas). now apply Map_set_fresh. }
  now rewrite E.
Qed.

Lemma get_map (key : K) (value : V) (c : t) :
  NoDup (keys (map c)) ->
  Map_get (map c) key = Some value ->
  get key c = (Some value, mk (Map_delete (map c) key ++ [(key, value)])
                              (maxSize c)).
Proof.
  intros Hnd Hget. unfold get. rewrite Hget.
  rewrite Map_set_fresh; [reflexivity | now apply Map_delete_not_In].
Qed.

Lemma maxSize_set (key : K) (value : V) (c : t) :
  maxSize (set key value c) = maxSize c.
Proof. reflexivity. Qed.

Lemma maxSize_get (key : K) (c : t) : maxSize (snd (get key c)) = maxSize c.
Proof. unfold get. now destruct (Map_get (map c) key). Qed.

Lemma maxSize_run (ops : list op) (c : t) : maxSize (run ops c) = maxSize c.
Proof.
  revert c. induction ops as [|o ops IH]; intros c; simpl; [reflexivity|].
  unfold run in IH. rewrite IH.
  destruct o; simpl; auto using maxSize_get, maxSize_set.
Qed.

Lemma NoDup_keys_snoc (m : JSMap) (key : K) (value : V) :
  NoDup (keys m) -> ~ In key (keys m) -> NoDup (keys (m ++ [(key, value)])).
Proof.
  intros Hnd Hnotin. rewrite keys_app. simpl.
  apply NoDup_app; [assumption | repeat constructor; simpl; tauto |].
  intros a Ha [E|[]]. congruence.
Qed.

Lemma NoDup_keys_tl (m : JSMap) : NoDup (keys m) -> NoDup (keys (tl m)).
Proof.
  destruct m as [|kv m]; simpl; [auto|]. now inversion 1.
Qed.

(** *** Preservation of the invariant *)

Lemma new_wf (n : Z) (c : t) : new n = Some c -> wf c /\ maxSize c = n.
Proof.
  unfold new. destruct (n <? 1) eqn:E; [discriminate|].
  intros [= <-]. apply Z.ltb_ge in E.
  unfold wf, Map_size; simpl. repeat split; [constructor | lia | lia].
Qed.

Lemma set_wf (key : K) (value : V) (c : t) : wf c -> wf (set key value c).
Proof.
  intros (Hnd & Hsz & Hmax). unfold wf.
  rewrite maxSize_set, (set_map key value c Hnd). cbv zeta.
  pose proof (Map_delete_length (map c) key) as Hlen.
  pose proof (NoDup_keys_snoc _ key value
                (Map_delete_NoDup _ key Hnd)
                (Map_delete_not_In _ key Hnd)) as Hnd2.
  set (m2 := Map_delete (map c) key ++ [(key, value)]) in *.
  assert (Hm2 : List.length m2 = S (List.length (Map_delete (map c) key))).
  { unfold m2. rewrite length_app. simpl. lia. }
  unfold Map_size in *.
  destruct (Z.of_nat (List.length m2) >? maxSize c) eqn:E.
  - repeat split; [now apply NoDup_keys_tl | | assumption].
    destruct m2; simpl in *; lia.
  - repeat split; [assumption | | assumption].
    rewrite Z.gtb_ltb in E. apply Z.ltb_ge in E. exact E.
Qed.

Lemma get_wf (key : K) (c : t) : wf c -> wf (snd (get key c)).
Proof.
  intros Hwf. destruct (Map_get (map c) key) as [value|] eqn:Hget.
  - destruct Hwf as (Hnd & Hsz & Hmax).
    rewrite (get_map key value c Hnd Hget). unfold wf; simpl.
    repeat split; [| | assumption].
    + apply NoDup_keys_snoc;
        [now apply Map_delete_NoDup | now apply Map_delete_not_In].
    + assert (Hin : In key (keys (map c))).
      { destruct (in_dec K_eq_dec key (keys (map c))) as [I|NI]; [exact I|].
        apply Map_get_None in NI. congruence. }
      pose proof (Map_delete_length_In _ _ Hin).
      unfold Map_size in *. rewrite length_app. simpl. lia.
  - unfold get. now rewrite Hget.
Qed.

Lemma clear_wf (c : t) : wf c -> wf (clear c).
Proof.
  intros (_ & _ & Hmax). unfold wf, clear, Map_size; simpl.
  repeat split; [constructor | lia | assumption].
Qed.

Lemma run_wf (ops : list op) (c : t) : wf c -> wf (run ops c).
Proof.
  revert c. induction ops as [|o ops IH]; intros c Hwf; simpl; [assumption|].
  apply IH. destruct o; simpl; auto using get_wf, set_wf, clear_wf.
Qed.

(** *** A property of all the bindings is kept by every operation *)

Section Bindings.

Variable P : K * V -> Prop.

Lemma Map_get_Some_In (m : JSMap) (key : K) (value : V) :
  Map_get m key = Some value -> In (key, value) m.
Proof.
  induction m as [|[k v] m IH]; simpl; [discriminate|].
  destruct (K_eq_dec k key) as [->|Hne].
  - intros [= ->]. now left.
  - intros H. right. now apply IH.
Qed.

Lemma Map_delete_Forall (m : JSMap) (key : K) :
  Forall P m -> Forall P (Map_delete m key).
Proof.
  induction 1 as [|[k v] m Hkv Hm IH]; simpl; [constructor|].
  destruct (K_eq_dec k key); [assumption | now constructor].
Qed.

Lemma Map_set_Forall (m : JSMap) (key : K) (value : V) :
  P (key, value) -> Forall P m -> Forall P (Map_set m key value).
Proof.
  intros Hkv. induction 1 as [|[k v] m Hk Hm IH]; simpl.
  - now repeat constructor.
  - destruct (K_eq_dec k key) as [->|Hne]; now constructor.
Qed.

Lemma get_Forall (key : K) (c : t) :
  Forall P (map c) -> Forall P (map (snd (get key c))).
Proof.
  intros H. unfold get. destruct (Map_get (map c) key) as [v|] eqn:E;
    [|exact H].
  cbn [snd map]. apply Map_set_Forall.
  - rewrite Forall_forall in H. apply H. now apply Map_get_Some_In.
  - now apply Map_delete_Forall.
Qed.

Lemma set_Forall (key : K) (value : V) (c : t) :
  P (key, value) -> Forall P (map c) -> Forall P (map (set key value c)).
Proof.
  intros Hkv H. unfold set. cbn [map].
  assert (H2 : Forall P
                 (Map_set (if Map_has (map c) key
                           then Map_delete (map c) key else map c)
                    key value)).
  { apply Map_set_Forall; [exact Hkv|].
    destruct (Map_has (map c) key); [now apply Map_delete_Forall | exact H]. }
  destruct (Map_size _ >? maxSize c); [|exact H2].
  destruct (Map_firstKey _); [now apply Map_delete_Forall | exact H2].
Qed.

End Bindings.

Lemma setAll_snoc (kvs : list (K * V)) (key : K) (value : V) (c : t) :
  setAll (kvs ++ [(key, value)]) c = set key value (setAll kvs c).
Proof. unfold setAll. now rewrite fold_left_app. Qed.

Lemma Map_delete_app_absent (m1 m2 : JSMap) (key : K) :
  ~ In key (keys m2) ->
  Map_delete (m1 ++ m2) key = Map_delete m1 key ++ m2.
Proof.
  intros Hnot. induction m1 as [|[k v] m1 IH]; simpl.
  - now apply Map_delete_absent.
  - destruct (K_eq_dec k key); [reflexivity|]. now rewrite IH.
Qed.

Lemma set_mk (key : K) (value : V) (c : t) :
  set key value c = mk (map (set key value c)) (maxSize c).
Proof. reflexivity. Qed.

(** Inserting bindings with distinct keys that fit in the capacity, on a
    map that ends with the bindings [p] inserted so far: the new ones
    are appended in order, and only older entries ([older]) are
    overwritten or evicted. *)
Lemma setAll_distinct (kvs : list (K * V)) (older p : JSMap) (n : Z) :
  NoDup (keys (older ++ p)) ->
  NoDup (keys (p ++ kvs)) ->
  Z.of_nat (List.length (older ++ p)) <= n ->
  Z.of_nat (List.length (p ++ kvs)) <= n ->
  exists older',
    setAll kvs (mk (older ++ p) n) = mk (older' ++ p ++ kvs) n
    /\ NoDup (keys (older' ++ p ++ kvs))
    /\ Z.of_nat (List.length (older' ++ p ++ kvs)) <= n.
Proof.
  revert older p. induction kvs as [|[k v] kvs IH];
    intros older p Hnd Hndp Hlen Hlenp.
  - exists older. simpl. rewrite !app_nil_r. auto.
  - assert (Hkp : ~ In k (keys p)).
    { rewrite keys_app in Hndp. simpl in Hndp.
      apply NoDup_remove_2 in Hndp. intros I. apply Hndp.
      apply in_or_app. now left. }
    set (older1 := Map_delete older k).
    assert (Hnd1 : NoDup (keys (older1 ++ p ++ [(k, v)]))).
    { rewrite app_assoc. apply NoDup_keys_snoc.
      - unfold older1. rewrite <- Map_delete_app_absent by exact Hkp.
        now apply Map_delete_NoDup.
      - unfold older1. rewrite <- Map_delete_app_absent by exact Hkp.
        now apply Map_delete_not_In. }
    assert (Hset : exists older2,
               set k v (mk (older ++ p) n) = mk (older2 ++ p ++ [(k, v)]) n
               /\ NoDup (keys (older2 ++ p ++ [(k, v)]))
               /\ Z.of_nat (List.length (older2 ++ p ++ [(k, v)])) <= n).
    { rewrite set_mk, (set_map k v (mk (older ++ p) n) Hnd).
      cbn [map maxSize]. cbv zeta.
      rewrite (Map_delete_app_absent older p k Hkp). fold older1.
      rewrite <- app_assoc.
      assert (Hdl : (List.length older1 <= List.length older)%nat)
        by apply Map_delete_length.
      clearbody older1.
      destruct (Map_size (older1 ++ p ++ [(k, v)]) >? n) eqn:G.
      - rewrite Z.gtb_ltb in G. apply Z.ltb_lt in G. unfold Map_size in G.
        destruct older1 as [|o older2].
        + simpl in G. rewrite !length_app in *. simpl in *. lia.
        + exists older2. simpl tl. split; [reflexivity|]. split.
          * simpl in Hnd1. now inversion Hnd1.
          * simpl in G. simpl. rewrite !length_app in *. simpl in *. lia.
      - rewrite Z.gtb_ltb in G. apply Z.ltb_ge in G. unfold Map_size in G.
        exists older1. auto. }
    destruct Hset as (older2 & Hset & Hnd2 & Hlen2).
    unfold setAll in *. simpl fold_left. cbn [fst snd]. rewrite Hset.
    destruct (IH older2 (p ++ [(k, v)])) as (older' & E & Hnd' & Hlen').
    + assumption.
    + now rewrite <- app_assoc.
    + assumption.
    + now rewrite <- app_assoc.
    + exists older'. rewrite <- !app_assoc in *. simpl in *. auto.
Qed.

(** *** Properties of the cache *)

(** C1.  On a cache of capacity [N >= 1], in the state that any sequence
    of operations since its construction has left, inserting [N + 1]
    bindings with pairwise distinct keys through [set], in order and
    with no [get] in between, leaves exactly the last [N] of them, in
    insertion order: the size is [N], the first key is absent (the last
    insertion overflowed and evicted it, the least recently used), and
    every later key is present with the value it was inserted with. *)
Theorem C1_overflow_evicts_oldest
  (N : Z) (c0 : t) (ops : list op) (k1 : K) (v1 : V) (rest : list (K * V)) :
  1 <= N ->
  new N = Some c0 ->
  NoDup (keys ((k1, v1) :: rest)) ->
  Z.of_nat (List.length rest) = N ->
  let c := setAll ((k1, v1) :: rest) (run ops c0) in
  size c = N /\
  fst (get k1 c) = None /\
  (forall k v, In (k, v) rest -> fst (get k c) = Some v) /\
  map c = rest.
Proof.
  intros HN Hnew Hnd Hlen c.
  destruct (new_wf N c0 Hnew) as [Hwf0 Hmax0].
  pose proof (run_wf ops c0 Hwf0) as (Hndc & Hszc & _).
  pose proof (maxSize_run ops c0) as Hmax. rewrite Hmax0 in Hmax.
  assert (Hrest : rest <> []).
  { intros ->. simpl in Hlen. lia. }
  destruct (exists_last Hrest) as (init & [kl vl] & Einit).
  assert (Hnd' : NoDup (keys (((k1, v1) :: init) ++ [(kl, vl)]))).
  { simpl. rewrite <- Einit. exact Hnd. }
  assert (Hlen' : Z.of_nat (List.length ((k1, v1) :: init)) = N).
  { rewrite Einit, length_app in Hlen. simpl in *. lia. }
  assert (Hkl : ~ In kl (keys ((k1, v1) :: init))).
  { rewrite keys_app in Hnd'. simpl in Hnd'.
    pose proof (NoDup_remove_2 (k1 :: keys init) [] kl) as Hr.
    simpl in Hr. rewrite app_nil_r in Hr. now apply Hr. }
  assert (Hmap : map c = rest).
  { unfold c. rewrite Einit, app_comm_cons, setAll_snoc.
    destruct (run ops c0) as [m n] eqn:Erun. cbn [map maxSize] in *.
    subst n.
    destruct (setAll_distinct ((k1, v1) :: init) m [] N)
      as (older' & E & Hnd2 & Hlen2).
    - now rewrite app_nil_r.
    - rewrite keys_app in Hnd'. now apply NoDup_app_remove_r in Hnd'.
    - unfold Map_size in Hszc. now rewrite app_nil_r.
    - simpl app. lia.
    - rewrite app_nil_r in E. simpl app in E, Hnd2, Hlen2.
      assert (older' = []).
      { destruct older'; [reflexivity|].
        rewrite length_app in Hlen2. simpl in *. lia. }
      subst older'. simpl app in *. rewrite E.
      rewrite set_map by exact Hnd2. cbn [map maxSize]. cbv zeta.
      rewrite Map_delete_absent.
      + assert (G : (Map_size (((k1, v1) :: init) ++ [(kl, vl)]) >? N)
                    = true).
        { rewrite Z.gtb_ltb. apply Z.ltb_lt. unfold Map_size.
          rewrite length_app. simpl in *. lia. }
        rewrite G. reflexivity.
      + exact Hkl. }
  assert (Hndr : NoDup (keys rest)) by (simpl in Hnd; now inversion Hnd).
  repeat split.
  - unfold size, Map_size. now rewrite Hmap.
  - unfold get. rewrite Hmap.
    assert (Hnone : Map_get rest k1 = None).
    { apply Map_get_None. simpl in Hnd. now inversion Hnd. }
    now rewrite Hnone.
  - intros k v Hin. unfold get. rewrite Hmap.
    now rewrite (Map_get_In rest k v Hndr Hin).
  - exact Hmap.
Qed.

(** C2.  On a cache constructed with capacity [N >= 1], after every
    sequence of [get], [set] and [clear] the reported size lies between
    [0] and [N]. *)
Theorem C2_size_within_capacity (N : Z) (c0 : t) (ops : list op) :
  1 <= N ->
  new N = Some c0 ->
  0 <= size (run ops c0) <= N.
Proof.
  intros HN Hnew. destruct (new_wf N c0 Hnew) as [Hwf Hmax].
  destruct (run_wf ops c0 Hwf) as (_ & Hsz & _).
  rewrite maxSize_run, Hmax in Hsz.
  unfold size, Map_size in *. lia.
Qed.

(** C3 (amended).  On a cache of capacity [N >= 2], reached from its
    construction by any sequence of operations, if [get k] returns a
    value and one key [k'] that is not in the cache is then inserted, [k]
    is not evicted: [get k] still returns the same value. *)
Theorem C3_get_protects_from_next_eviction
  (N : Z) (c0 c c1 : t) (ops : list op) (k k' : K) (v v' : V) :
  2 <= N ->
  new N = Some c0 ->
  c = run ops c0 ->
  get k c = (Some v, c1) ->
  Map_has (map c1) k' = false ->
  fst (get k (set k' v' c1)) = Some v.
Proof.
  intros HN Hnew -> Hget Hfresh.
  destruct (new_wf N c0 Hnew) as [Hwf0 Hmax0].
  pose proof (run_wf ops c0 Hwf0) as Hwf.
  pose proof (maxSize_run ops c0) as Hmax. rewrite Hmax0 in Hmax.
  set (c := run ops c0) in *.
  destruct Hwf as (Hnd & Hsz & _).
  assert (Hg : Map_get (map c) k = Some v).
  { unfold get in Hget. destruct (Map_get (map c) k); congruence. }
  rewrite (get_map k v c Hnd Hg) in Hget. inversion Hget as [Hc1].
  clear Hget. subst c1. cbn [map] in Hfresh.
  apply Map_has_false in Hfresh.
  set (m1 := Map_delete (map c) k ++ [(k, v)]) in *.
  assert (Hnd1 : NoDup (keys m1)).
  { apply NoDup_keys_snoc;
      [now apply Map_delete_NoDup | now apply Map_delete_not_In]. }
  assert (Hkk' : k <> k').
  { intros <-. apply Hfresh. unfold m1. rewrite keys_app.
    apply in_or_app. right. now left. }
  assert (Hin : In k (keys (map c))).
  { destruct (in_dec K_eq_dec k (keys (map c))) as [I|NI]; [exact I|].
    apply Map_get_None in NI. congruence. }
  pose proof (Map_delete_length_In _ _ Hin) as Hlen.
  assert (Hfinal : Map_get (map (set k' v' (mk m1 (maxSize c)))) k = Some v).
  { rewrite set_map by exact Hnd1. cbn [map maxSize]. cbv zeta.
    rewrite (Map_delete_absent _ _ Hfresh).
    assert (Hfull : Map_get (m1 ++ [(k', v')]) k = Some v).
    { apply Map_get_In.
      - now apply NoDup_keys_snoc.
      - apply in_or_app. left. unfold m1. apply in_or_app. right. now left. }
    destruct (Map_size (m1 ++ [(k', v')]) >? maxSize c) eqn:G;
      [|exact Hfull].
    (* an eviction takes place: the map was full, so it held another,
       older entry in front of [k] *)
    rewrite Z.gtb_ltb in G. apply Z.ltb_lt in G.
    unfold m1 in *. unfold Map_size in *.
    rewrite !length_app in G. simpl in G.
    destruct (Map_delete (map c) k) as [|[k0 w0] d] eqn:Ed.
    - simpl in *. lia.
    - simpl. simpl in Hfull.
      destruct (K_eq_dec k0 k) as [->|Hne]; [|exact Hfull].
      exfalso. apply (Map_delete_not_In (map c) k Hnd).
      rewrite Ed. now left. }
  unfold get. rewrite Hfinal. reflexivity.
Qed.

(** *** Further properties of the cache *)

Lemma get_fst (key : K) (c : t) : fst (get key c) = Map_get (map c) key.
Proof. unfold get. now destruct (Map_get (map c) key). Qed.

Lemma reachable_wf (N : Z) (c0 : t) (ops : list op) :
  new N = Some c0 -> wf (run ops c0) /\ maxSize (run ops c0) = N.
Proof.
  intros Hnew. destruct (new_wf N c0 Hnew) as [Hwf Hmax].
  split; [now apply run_wf | now rewrite maxSize_run].
Qed.

Lemma Map_get_snoc_other (m : JSMap) (key k : K) (value : V) :
  k <> key -> Map_get (m ++ [(key, value)]) k = Map_get m k.
Proof.
  intros Hne. rewrite Map_get_app. destruct (Map_get m k); [reflexivity|].
  simpl. destruct (K_eq_dec key k); congruence.
Qed.

Lemma Map_get_snoc_same (m : JSMap) (key : K) (value : V) :
  ~ In key (keys m) -> Map_get (m ++ [(key, value)]) key = Some value.
Proof.
  intros Hnot. rewrite Map_get_app.
  apply Map_get_None in Hnot. rewrite Hnot. simpl.
  destruct (K_eq_dec key key); congruence.
Qed.

Lemma Map_get_Some_keys (m : JSMap) (key : K) (value : V) :
  Map_get m key = Some value -> In key (keys m).
Proof.
  intros H. apply Map_get_Some_In in H.
  change key with (fst (key, value)). now apply in_map.
Qed.

Lemma set_get_wf (key : K) (value : V) (c : t) :
  wf c -> fst (get key (set key value c)) = Some value.
Proof.
  intros (Hnd & Hsz & Hcap).
  rewrite get_fst, (set_map key value c Hnd). cbv zeta.
  pose proof (Map_delete_not_In (map c) key Hnd) as Hnot.
  pose proof (Map_delete_length (map c) key) as Hlen.
  destruct (Map_size (Map_delete (map c) key ++ [(key, value)]) >? maxSize c)
    eqn:G.
  - rewrite Z.gtb_ltb in G. apply Z.ltb_lt in G. unfold Map_size in *.
    destruct (Map_delete (map c) key) as [|d del].
    + simpl in G. lia.
    + simpl tl. apply Map_get_snoc_same.
      intros I. apply Hnot. simpl. now right.
  - now apply Map_get_snoc_same.
Qed.

Lemma get_hit_wf (key : K) (value : V) (c : t) :
  wf c -> fst (get key c) = Some value ->
  fst (get key (snd (get key c))) = Some value.
Proof.
  intros (Hnd & _ & _) Hget. rewrite get_fst in Hget.
  rewrite (get_map key value c Hnd Hget). cbn [snd].
  rewrite get_fst. cbn [map]. apply Map_get_snoc_same.
  now apply Map_delete_not_In.
Qed.

(** Round trip.  In every state reached from the constructor, a binding
    written by [set] is read back by [get]: the entry just written is
    never the one that the overflow evicts. *)
Theorem set_then_get (N : Z) (c0 : t) (ops : list op) (key : K) (value : V) :
  new N = Some c0 ->
  fst (get key (set key value (run ops c0))) = Some value.
Proof.
  intros Hnew. apply set_get_wf. now apply (reachable_wf N).
Qed.

(** Overwriting.  [set] on a key that is present replaces its value and
    makes it the most recently used entry; nothing is evicted: the size
    is unchanged and every other key keeps its value. *)
Theorem set_existing_key
  (N : Z) (c0 : t) (ops : list op) (key : K) (old value : V) :
  new N = Some c0 ->
  let c := run ops c0 in
  fst (get key c) = Some old ->
  map (set key value c) = Map_delete (map c) key ++ [(key, value)]
  /\ size (set key value c) = size c
  /\ (forall k, k <> key ->
                fst (get k (set key value c)) = fst (get k c)).
Proof.
  intros Hnew c Hold. destruct (reachable_wf N c0 ops Hnew) as [Hwf Hmax].
  fold c in Hwf, Hmax. destruct Hwf as (Hnd & Hsz & Hcap).
  rewrite get_fst in Hold.
  pose proof (Map_delete_length_In _ _ (Map_get_Some_keys _ _ _ Hold)) as Hlen.
  assert (Hmap : map (set key value c)
                 = Map_delete (map c) key ++ [(key, value)]).
  { rewrite (set_map key value c Hnd). cbv zeta.
    assert (G : (Map_size (Map_delete (map c) key ++ [(key, value)])
                 >? maxSize c) = false).
    { rewrite Z.gtb_ltb. apply Z.ltb_ge. unfold Map_size in *.
      rewrite length_app. simpl. lia. }
    now rewrite G. }
  split; [exact Hmap|]. split.
  - unfold size, Map_size. rewrite Hmap, length_app. simpl. lia.
  - intros k Hne. rewrite !get_fst, Hmap.
    rewrite (Map_get_snoc_other _ _ _ _ Hne).
    now apply Map_get_delete_other.
Qed.

(** Insertion and eviction.  [set] on a key that is absent appends the
    binding as the most recently used one; below capacity nothing else
    changes, and at capacity exactly one entry leaves, the first in
    recency order (the least recently used). *)
Theorem set_new_key
  (N : Z) (c0 : t) (ops : list op) (key : K) (value : V) :
  new N = Some c0 ->
  let c := run ops c0 in
  fst (get key c) = None ->
  map (set key value c) =
  (if size c <? N then map c else tl (map c)) ++ [(key, value)].
Proof.
  intros Hnew c Hnone. destruct (reachable_wf N c0 ops Hnew) as [Hwf Hmax].
  fold c in Hwf, Hmax. destruct Hwf as (Hnd & Hsz & Hcap).
  rewrite get_fst in Hnone. apply Map_get_None in Hnone.
  rewrite (set_map key value c Hnd). cbv zeta.
  rewrite (Map_delete_absent _ _ Hnone), Hmax in *.
  unfold size, Map_size in *. rewrite length_app. simpl.
  destruct (Z.of_nat (List.length (map c)) <? N) eqn:L.
  - apply Z.ltb_lt in L.
    assert (G : (Z.of_nat (List.length (map c) + 1) >? N) = false)
      by (rewrite Z.gtb_ltb; apply Z.ltb_ge; lia).
    now rewrite G.
  - apply Z.ltb_ge in L.
    assert (G : (Z.of_nat (List.length (map c) + 1) >? N) = true)
      by (rewrite Z.gtb_ltb; apply Z.ltb_lt; lia).
    rewrite G. destruct (map c); [simpl in *; lia | reflexivity].
Qed.

(** [get] changes the recency order only: the size and the value of
    every key are as before, and a key that was found is now the most
    recently used entry. *)
Theorem get_only_refreshes (N : Z) (c0 : t) (ops : list op) (key : K) :
  new N = Some c0 ->
  let c := run ops c0 in
  size (snd (get key c)) = size c
  /\ (forall k, fst (get k (snd (get key c))) = fst (get k c))
  /\ (forall value,
        fst (get key c) = Some value ->
        map (snd (get key c)) = Map_delete (map c) key ++ [(key, value)]).
Proof.
  intros Hnew c. destruct (reachable_wf N c0 ops Hnew) as [Hwf _].
  fold c in Hwf. destruct Hwf as (Hnd & _ & _).
  destruct (Map_get (map c) key) as [value|] eqn:Hget.
  - rewrite (get_map key value c Hnd Hget). cbn [fst snd map].
    pose proof (Map_delete_length_In _ _ (Map_get_Some_keys _ _ _ Hget))
      as Hlen.
    split; [|split].
    + unfold size, Map_size. cbn [map]. rewrite length_app. simpl. lia.
    + intros k. rewrite !get_fst. cbn [map].
      destruct (K_eq_dec k key) as [->|Hne].
      * rewrite Hget. apply Map_get_snoc_same.
        now apply Map_delete_not_In.
      * rewrite (Map_get_snoc_other _ _ _ _ Hne).
        now apply Map_get_delete_other.
    + now intros v [= ->].
  - unfold get. rewrite Hget. cbn [fst snd].
    split; [reflexivity|]. split; [reflexivity | discriminate].
Qed.

(** [clear] brings the cache back to the state of its construction,
    whatever was done to it in between. *)
Theorem clear_resets (N : Z) (c0 : t) (ops : list op) :
  new N = Some c0 -> clear (run ops c0) = c0.
Proof.
  intros Hnew. unfold clear. rewrite maxSize_run.
  unfold new in Hnew. destruct (N <? 1); [discriminate|].
  now inversion Hnew.
Qed.

Lemma maxSize_setAll (kvs : list (K * V)) (c : t) :
  maxSize (setAll kvs c) = maxSize c.
Proof.
  revert c. induction kvs as [|kv kvs IH]; intros c; [reflexivity|].
  unfold setAll in *. simpl. now rewrite IH.
Qed.

Lemma setAll_wf (kvs : list (K * V)) (c : t) : wf c -> wf (setAll kvs c).
Proof.
  revert c. induction kvs as [|kv kvs IH]; intros c Hwf; [exact Hwf|].
  unfold setAll in *. simpl. apply IH. now apply set_wf.
Qed.

Lemma skipn_S_tl {A : Type} (n : nat) (l : list A) :
  skipn (S n) l = tl (skipn n l).
Proof.
  revert l. induction n as [|n IH]; intros [|x l]; try reflexivity.
  exact (IH l).
Qed.

(** The cache is a sliding window.  In every state reached from the
    constructor, once at least [N] bindings with pairwise distinct keys
    have been inserted in a row with [set], the cache holds exactly the
    last [N] of them, in insertion order. *)
Theorem setAll_keeps_last
  (N : Z) (c0 : t) (ops : list op) (kvs : list (K * V)) :
  new N = Some c0 ->
  NoDup (keys kvs) ->
  N <= Z.of_nat (List.length kvs) ->
  map (setAll kvs (run ops c0))
  = skipn (List.length kvs - Z.to_nat N) kvs.
Proof.
  intros Hnew. destruct (reachable_wf N c0 ops Hnew) as [Hwf Hmax].
  set (c := run ops c0) in *.
  induction kvs as [|[k v] l IH] using rev_ind; intros Hnd Hlen.
  - destruct Hwf as (_ & _ & Hcap). simpl in Hlen. lia.
  - rewrite length_app in *. simpl List.length in *.
    destruct (Z_lt_le_dec (Z.of_nat (List.length l)) N) as [Hshort|Hlong].
    + (* the bindings just fill the cache *)
      assert (Hexact : (List.length l + 1 - Z.to_nat N = 0)%nat) by lia.
      rewrite Hexact. simpl skipn.
      destruct c as [m n] eqn:Ec. cbn [maxSize map] in *. subst n.
      destruct Hwf as (Hndm & Hszm & _). cbn [map maxSize] in *.
      destruct (setAll_distinct (l ++ [(k, v)]) m [] N)
        as (older' & E & _ & Hlen2).
      * now rewrite app_nil_r.
      * exact Hnd.
      * unfold Map_size in Hszm. now rewrite app_nil_r.
      * simpl app. rewrite length_app. simpl. lia.
      * rewrite app_nil_r in E. rewrite E. cbn [map]. simpl app in *.
        destruct older'; [reflexivity|].
        rewrite !length_app in Hlen2. simpl in Hlen2. lia.
    + (* one more binding on a full window *)
      assert (Hndl : NoDup (keys l)).
      { rewrite keys_app in Hnd. now apply NoDup_app_remove_r in Hnd. }
      specialize (IH Hndl Hlong).
      pose proof (setAll_wf l c Hwf) as (Hndw & _ & Hcap).
      pose proof (maxSize_setAll l c) as Hmaxw. rewrite Hmax in Hmaxw.
      rewrite setAll_snoc, (set_map k v _ Hndw). cbv zeta.
      rewrite IH, Hmaxw.
      set (d := (List.length l - Z.to_nat N)%nat).
      assert (Hd : (List.length l + 1 - Z.to_nat N = S d)%nat)
        by (unfold d; lia).
      assert (Hw : List.length (skipn d l) = Z.to_nat N).
      { rewrite length_skipn. unfold d. lia. }
      assert (Hk : ~ In k (keys (skipn d l))).
      { rewrite keys_app in Hnd. simpl in Hnd.
        pose proof (NoDup_remove_2 (keys l) [] k) as Hr.
        rewrite app_nil_r in Hr. specialize (Hr Hnd).
        intros I. apply Hr. unfold keys in *.
        apply in_map_iff in I. destruct I as (x & Ex & Ix).
        apply in_map_iff. exists x. split; [exact Ex|].
        rewrite <- (firstn_skipn d l). apply in_or_app. now right. }
      rewrite (Map_delete_absent _ _ Hk).
      assert (G : (Map_size (skipn d l ++ [(k, v)]) >? N) = true).
      { rewrite Z.gtb_ltb. apply Z.ltb_lt. unfold Map_size.
        rewrite length_app, Hw. simpl. lia. }
      rewrite G, Hd, skipn_S_tl, skipn_app.
      assert (Hz : (d - List.length l = 0)%nat) by (unfold d; lia).
      rewrite Hz. simpl skipn at 2.
      destruct (skipn d l); [simpl in Hw; lia | reflexivity].
Qed.

End Generic.

(** *** The cache at string keys *)

Local Open Scope string_scope.

Definition ofList (n : Z) (l : list (string * Z)) : t string Z :=
  setAll string Z string_dec l (mk string Z [] n).

(** C1, on the scenario of the design document, capacity 3 and the
    insertions [a], [b], [c], [d], here on a cache that was used before. *)
Lemma C1_witness :
  let c :=
    setAll string Z string_dec [("a", 1); ("b", 2); ("c", 3); ("d", 4)]
      (run string Z string_dec
         [Set_ string Z "z" 9; Set_ string Z "a" 0; Get string Z "z"]
         (mk string Z [] 3)) in
  size string Z c = 3 /\
  fst (get string Z string_dec "a" c) = None /\
  (forall k v, In (k, v) [("b", 2); ("c", 3); ("d", 4)] ->
               fst (get string Z string_dec k c) = Some v) /\
  map string Z c = [("b", 2); ("c", 3); ("d", 4)].
Proof.
  apply (C1_overflow_evicts_oldest string Z string_dec 3
           (mk string Z [] 3)
           [Set_ string Z "z" 9; Set_ string Z "a" 0; Get string Z "z"]
           "a" 1 [("b", 2); ("c", 3); ("d", 4)]).
  - lia.
  - reflexivity.
  - repeat constructor; simpl; intuition discriminate.
  - reflexivity.
Defined.

Lemma C2_witness :
  0 <= size string Z
         (run string Z string_dec
            [Set_ string Z "a" 1; Set_ string Z "b" 2; Get string Z "a";
             Set_ string Z "c" 3; Clear string Z; Set_ string Z "d" 4]
            (mk string Z [] 2)) <= 2.
Proof.
  apply (C2_size_within_capacity string Z string_dec 2 (mk string Z [] 2)).
  - lia.
  - reflexivity.
Defined.

Lemma C3_witness :
  fst (get string Z string_dec "a"
         (set string Z string_dec "c" 3
            (snd (get string Z string_dec "a"
                    (ofList 2 [("a", 1); ("b", 2)]))))) = Some 1.
Proof.
  apply (C3_get_protects_from_next_eviction string Z string_dec 2
           (mk string Z [] 2)
           (ofList 2 [("a", 1); ("b", 2)])
           (snd (get string Z string_dec "a"
                   (ofList 2 [("a", 1); ("b", 2)])))
           [Set_ string Z "a" 1; Set_ string Z "b" 2]
           "a" "c" 1 3).
  - lia.
  - reflexivity.
  - reflexivity.
  - reflexivity.
  - reflexivity.
Defined.

(** Two scenarios of the test suite: [get] and an overwriting [set]
    refresh the entry, so that the next overflow evicts [b]. *)
Example refresh_on_get :
  map string Z
    (set string Z string_dec "d" 4
       (snd (get string Z string_dec "a"
               (ofList 3 [("a", 1); ("b", 2); ("c", 3)]))))
  = [("c", 3); ("a", 1); ("d", 4)].
Proof. reflexivity. Qed.

Example refresh_on_set :
  map string Z (ofList 3 [("a", 1); ("b", 2); ("c", 3); ("a", 10); ("d", 4)])
  = [("c", 3); ("a", 10); ("d", 4)].
Proof. reflexivity. Qed.

(** C3 as stated fails at capacity 1: the cache holds [k] alone, [get k]
    refreshes it, and the insertion of a new key overflows the single
    slot, so that [k], the only older entry, is evicted. *)
Lemma C3_counterexample :
  let c := ofList 1 [("k", 7)] in
  let c1 := snd (get string Z string_dec "k" c) in
  new string Z 1 = Some (mk string Z [] 1) /\
  fst (get string Z string_dec "k" c) = Some 7 /\
  Map_has string Z string_dec (map string Z c1) "n" = false /\
  fst (get string Z string_dec "k" (set string Z string_dec "n" 8 c1))
  = None.
Proof. repeat split. Qed.

(** The further properties, on small caches. *)

Definition used2 : list (op string Z) :=
  [Set_ string Z "a" 1; Set_ string Z "b" 2; Get string Z "a"].

Lemma set_then_get_witness :
  fst (get string Z string_dec "c"
         (set string Z string_dec "c" 3
            (run string Z string_dec used2 (mk string Z [] 2))))
  = Some 3.
Proof.
  apply (set_then_get string Z string_dec 2 (mk string Z [] 2) used2 "c" 3).
  reflexivity.
Defined.

Lemma set_existing_key_witness :
  let c := run string Z string_dec used2 (mk string Z [] 2) in
  map string Z (set string Z string_dec "b" 20 c) = [("a", 1); ("b", 20)]
  /\ size string Z (set string Z string_dec "b" 20 c) = 2
  /\ (forall k, k <> "b" ->
        fst (get string Z string_dec k (set string Z string_dec "b" 20 c))
        = fst (get string Z string_dec k c)).
Proof.
  apply (set_existing_key string Z string_dec 2 (mk string Z [] 2) used2
           "b" 2 20); reflexivity.
Defined.

Lemma set_new_key_witness :
  map string Z
    (set string Z string_dec "c" 3
       (run string Z string_dec used2 (mk string Z [] 2)))
  = [("a", 1); ("c", 3)].
Proof.
  apply (set_new_key string Z string_dec 2 (mk string Z [] 2) used2 "c" 3);
    reflexivity.
Defined.

Lemma get_only_refreshes_witness :
  let c := run string Z string_dec used2 (mk string Z [] 2) in
  size string Z (snd (get string Z string_dec "b" c)) = 2
  /\ (forall k, fst (get string Z string_dec k
                       (snd (get string Z string_dec "b" c)))
                = fst (get string Z string_dec k c))
  /\ (forall value,
        fst (get string Z string_dec "b" c) = Some value ->
        map string Z (snd (get string Z string_dec "b" c))
        = [("a", 1); ("b", value)]).
Proof.
  apply (get_only_refreshes string Z string_dec 2 (mk string Z [] 2) used2
           "b").
  reflexivity.
Defined.

Lemma clear_resets_witness :
  clear string Z (run string Z string_dec used2 (mk string Z [] 2))
  = mk string Z [] 2.
Proof.
  apply (clear_resets string Z string_dec 2). reflexivity.
Defined.

Lemma setAll_keeps_last_witness :
  map string Z
    (setAll string Z string_dec
       [("c", 3); ("d", 4); ("e", 5); ("f", 6)]
       (run string Z string_dec used2 (mk string Z [] 2)))
  = [("e", 5); ("f", 6)].
Proof.
  apply (setAll_keeps_last string Z string_dec 2 (mk string Z [] 2) used2
           [("c", 3); ("d", 4); ("e", 5); ("f", 6)]).
  - reflexivity.
  - repeat constructor; simpl; intuition discriminate.
  - simpl. lia.
Defined.

End LRUCache.

(** ** The string and array builtins used by [src/core.ts] *)

Module JS.

(** [s.length], in code units. *)
Definition length (s : string) : Z := Z.of_nat (String.length s).

(** [s.startsWith(q)]. *)
Fixpoint startsWith (s q : string) {struct q} : bool :=
  match q with
  | EmptyString => true
  | String a q' =>
      match s with
      | EmptyString => false
      | String b s' => Ascii.eqb a b && startsWith s' q'
      end
  end.

(** [s.indexOf(q)]: the least position at which [q] occurs in [s], or
    [-1]. *)
Fixpoint indexOf (s q : string) : Z :=
  if startsWith s q then 0
  else
    match s with
    | EmptyString => -1
    | String _ s' =>
        let i := indexOf s' q in
        if i =? -1 then -1 else i + 1
    end.

(** [s.includes(q)], which ECMAScript defines through the same search. *)
Definition includes (s q : string) : bool := negb (indexOf s q =? -1).

(** [s.slice(start, end)] for [0 <= start] and [0 <= end], the only use
    the engines make of it. *)
Definition slice (s : string) (start end_ : Z) : string :=
  String.substring (Z.to_nat start) (Z.to_nat (end_ - start)) s.

Definition newline : ascii := ascii_of_nat 10.

(** [s.replace(/\n/g, " ")]. *)
Fixpoint flattenNewlines (s : string) : string :=
  match s with
  | EmptyString => EmptyString
  | String a s' =>
      String (if Ascii.eqb a newline then " "%char else a)
             (flattenNewlines s')
  end.

(** [l.join(sep)]. *)
Definition join (sep : string) (l : list string) : string :=
  String.concat sep l.

(** The decimal rendering of a length inside a template literal. *)
Definition ofNat (n : nat) : string :=
  DecimalString.NilZero.string_of_uint (Nat.to_uint n).

(** The double quote and the line feed, for the message templates. *)
Definition dq : string := String (ascii_of_nat 34) EmptyString.
Definition nl : string := String newline EmptyString.

(** [a.slice(0, n)] on an array. *)
Definition arraySlice0 {A : Type} (n : nat) (l : list A) : list A :=
  firstn n l.

(** [a.sort(compareFn)].  The sort of ECMAScript is stable, and on a
    consistent comparator every stable sort returns the same array; it is
    modelled by the stable insertion sort: an element goes in front of
    the first one that [compareFn] places strictly after it. *)
Fixpoint insert {A : Type} (compareFn : A -> A -> Z) (x : A) (l : list A)
  : list A :=
  match l with
  | [] => [x]
  | y :: l' =>
      if 0 <? compareFn y x then x :: y :: l'
      else y :: insert compareFn x l'
  end.

Definition sort {A : Type} (compareFn : A -> A -> Z) (l : list A) : list A :=
  fold_left (fun acc x => insert compareFn x acc) l [].

(** *** Facts on the builtins *)

Lemma startsWith_app (s q : string) :
  startsWith s q = true <-> exists b, s = (q ++ b)%string.
Proof.
  revert s. induction q as [|a q IH]; intros s; simpl.
  - split; [intros _; now exists s | reflexivity].
  - destruct s as [|b s].
    + split; [discriminate | intros [b0 H]; discriminate].
    + rewrite andb_true_iff, Ascii.eqb_eq, IH.
      split.
      * intros [-> [r ->]]. now exists r.
      * intros [r H]. inversion H; subst. split; [reflexivity | now exists r].
Qed.

Lemma includes_empty (s : string) : includes s EmptyString = true.
Proof. unfold includes. now destruct s. Qed.

Lemma indexOf_range (s q : string) :
  indexOf s q = -1 \/ 0 <= indexOf s q <= length s.
Proof.
  unfold length. induction s as [|a s IH]; simpl.
  - destruct (startsWith EmptyString q); lia.
  - destruct (startsWith (String a s) q); [lia|].
    destruct (indexOf s q =? -1) eqn:E; [now left|].
    apply Z.eqb_neq in E. lia.
Qed.

(** [includes] is the substring test. *)
Lemma includes_spec (s q : string) :
  includes s q = true <-> exists a b, s = (a ++ q ++ b)%string.
Proof.
  unfold includes. rewrite negb_true_iff, Z.eqb_neq.
  induction s as [|c s IH]; simpl.
  - destruct (startsWith EmptyString q) eqn:P.
    + split; [intros _ | discriminate].
      apply startsWith_app in P. destruct P as [b Hb].
      now exists EmptyString, b.
    + split; [congruence|]. intros (a & b & H).
      destruct a; [|discriminate]. simpl in H.
      assert (startsWith EmptyString q = true)
        by (apply startsWith_app; now exists b).
      congruence.
  - destruct (startsWith (String c s) q) eqn:P.
    + split; [intros _ | discriminate].
      apply startsWith_app in P. destruct P as [b Hb].
      now exists EmptyString, b.
    + destruct (indexOf s q =? -1) eqn:E.
      * apply Z.eqb_eq in E. split; [congruence|].
        intros (a & b & H). destruct a as [|a0 a]; simpl in H.
        -- assert (startsWith (String c s) q = true)
             by (apply startsWith_app; now exists b).
           congruence.
        -- inversion H; subst. exfalso.
           assert (I : indexOf (a ++ q ++ b)%string q <> -1)
             by (apply IH; now exists a, b).
           contradiction.
      * apply Z.eqb_neq in E. split.
        -- intros _. apply IH in E. destruct E as (a & b & H).
           exists (String c a), b. simpl. now rewrite H.
        -- intros _. pose proof (indexOf_range s q). lia.
Qed.

Lemma ofNat_head (n : nat) :
  exists (d : ascii) (r : string),
    ofNat n = String d r /\
    In d (list_ascii_of_string "0123456789"%string).
Proof.
  unfold ofNat. destruct (Nat.to_uint n); simpl;
    eexists; eexists; (split; [reflexivity|]); simpl; tauto.
Qed.

(** *** The sort, on a consistent comparator *)

Section Sorting.

Variable A : Type.
Variable compareFn : A -> A -> Z.

(** [a] may stand in front of [b]. *)
Definition inOrder (a b : A) : Prop := compareFn a b <= 0.

Hypothesis compareFn_trans :
  forall a b c, inOrder a b -> inOrder b c -> inOrder a c.
Hypothesis compareFn_total :
  forall a b, 0 < compareFn a b -> inOrder b a.

Lemma insert_Permutation (x : A) (l : list A) :
  Permutation (insert compareFn x l) (x :: l).
Proof.
  induction l as [|y l IH]; simpl; [reflexivity|].
  destruct (0 <? compareFn y x); [reflexivity|].
  rewrite IH. apply perm_swap.
Qed.

Lemma sort_from_Permutation (l acc : list A) :
  Permutation (fold_left (fun acc x => insert compareFn x acc) l acc)
              (acc ++ l).
Proof.
  revert acc. induction l as [|x l IH]; intros acc; simpl.
  - now rewrite app_nil_r.
  - rewrite IH, insert_Permutation. apply Permutation_middle.
Qed.

Lemma sort_Permutation (l : list A) : Permutation (sort compareFn l) l.
Proof. unfold sort. apply (sort_from_Permutation l []). Qed.

Lemma insert_StronglySorted (x : A) (l : list A) :
  StronglySorted inOrder l -> StronglySorted inOrder (insert compareFn x l).
Proof using compareFn_trans compareFn_total.
  induction 1 as [|y l Hl IH Hy]; simpl.
  - repeat constructor.
  - destruct (0 <? compareFn y x) eqn:E.
    + apply Z.ltb_lt in E. pose proof (compareFn_total y x E) as Hxy.
      constructor; [now constructor|].
      constructor; [exact Hxy|].
      eapply Forall_impl; [|exact Hy].
      intros z Hz. now apply (compareFn_trans x y z).
    + apply Z.ltb_ge in E. constructor; [exact IH|].
      apply (Permutation_Forall (x := x :: l)).
      * symmetry. apply insert_Permutation.
      * now constructor.
Qed.

Lemma sort_from_StronglySorted (l acc : list A) :
  StronglySorted inOrder acc ->
  StronglySorted inOrder
    (fold_left (fun acc x => insert compareFn x acc) l acc).
Proof using compareFn_trans compareFn_total.
  revert acc. induction l as [|x l IH]; intros acc Hacc; simpl.
  - exact Hacc.
  - apply IH. now apply insert_StronglySorted.
Qed.

Lemma sort_StronglySorted (l : list A) :
  StronglySorted inOrder (sort compareFn l).
Proof using compareFn_trans compareFn_total.
  apply sort_from_StronglySorted. constructor.
Qed.

End Sorting.

(** In a strongly sorted list the relation holds between any two
    positions taken from left to right. *)
Lemma StronglySorted_nth_error {A : Type} (R : A -> A -> Prop)
  (l : list A) (i j : nat) (x y : A) :
  StronglySorted R l -> (i < j)%nat ->
  nth_error l i = Some x -> nth_error l j = Some y -> R x y.
Proof.
  intros Hs. revert i j. induction Hs as [|a l Hl IH Ha]; intros i j Hij Hi Hj.
  - destruct i; discriminate.
  - destruct j as [|j]; [lia|]. simpl in Hj.
    destruct i as [|i]; simpl in Hi.
    + inversion Hi; subst. rewrite Forall_forall in Ha. apply Ha.
      eapply nth_error_In; eauto.
    + apply (IH i j); [lia | assumption | assumption].
Qed.

End JS.

(** ** The records of [src/types.ts] *)

Module ComponentEntry.
Record t : Type := mk {
  name : string;
  title : string;
  description : string;
  category : string;
  sections : list string
}.
End ComponentEntry.

Module SearchResult.
Record t : Type := mk {
  name : string;
  title : string;
  category : string;
  matchType : string;
  excerpt : string
}.
End SearchResult.

Module IconEntry.
Record t : Type := mk {
  name : string;
  category : string;
  variants : list string;
  classes : list string
}.
End IconEntry.

Module ColorDecisionToken.
Record t : Type := mk {
  token : string;
  context : string;
  description : string;
  light : string;
  dark : string
}.
End ColorDecisionToken.

Module ColorFamily.
Record t : Type := mk {
  name : string;
  category : string;
  correspondences : list (string * (string * string))
}.
End ColorFamily.

Module ColorsIndex.
Record t : Type := mk {
  decisionTokens : list ColorDecisionToken.t;
  families : list ColorFamily.t;
  illustrativeNames : list string
}.
End ColorsIndex.

Module ToolTextResult.
Record item : Type := mkItem { type : string; text : string }.
Record t : Type := mk { content : list item }.
End ToolTextResult.

(** ** The engines ([src/core.ts]) *)

Module Core.

Local Open Scope string_scope.

(** The one shape every engine returns:
    [{ content: [{ type: "text", text }] }]. *)
Definition textResult (text : string) : ToolTextResult.t :=
  ToolTextResult.mk [ToolTextResult.mkItem "text" text].

(** The state the engines act on: the shared cache, and the list of the
    paths handed to [readFileWithCache] so far (a ghost log, oldest
    first, which no function reads). *)
Record State : Type := mkState {
  cache : LRUCache.t string string;
  reads : list string
}.

(** A truthy optional string: given and not empty. *)
Definition truthy (o : option string) : bool :=
  match o with
  | Some s => negb (s =? EmptyString)
  | None => false
  end.

Definition ICON_CATEGORIES : list string :=
  ["arrows"; "buildings"; "business"; "communication"; "design";
   "development"; "device"; "document"; "editor"; "finance";
   "health"; "logo"; "map"; "media"; "others"; "system"; "user"; "weather"].

Section Engines.

(** [String.prototype.toLowerCase]. *)
Variable toLowerCase : string -> string.

(** [String.prototype.localeCompare]: negative, zero or positive. *)
Variable localeCompare : string -> string -> Z.

(** [path.join] of [node:path]. *)
Variable path_join : list string -> string.

(** The file system: [existsSync] and [readFileSync(_, "utf-8")].  The
    documentation tree is not written while the server runs. *)
Variable existsSync : string -> bool.
Variable readFileSync : string -> string.

Definition cacheGet (filePath : string) (c : LRUCache.t string string)
  : option string * LRUCache.t string string :=
  LRUCache.get string string string_dec filePath c.

Definition cacheSet (filePath content : string)
  (c : LRUCache.t string string) : LRUCache.t string string :=
  LRUCache.set string string string_dec filePath content c.

Definition readFileWithCache (filePath : string) (st : State)
  : option string * State :=
  let log := (reads st ++ [filePath])%list in
  match cacheGet filePath (cache st) with
  | (Some cached, c1) => (Some cached, mkState c1 log)
  | (None, c1) =>
      if negb (existsSync filePath) then (None, mkState c1 log)
      else
        let content := readFileSync filePath in
        (Some content, mkState (cacheSet filePath content c1) log)
  end.

(** *** getComponentDoc *)

Definition sectionPath (docsDir : string) (entry : ComponentEntry.t)
  (section : string) : string :=
  path_join [docsDir; ComponentEntry.category entry;
             ComponentEntry.name entry; section ++ ".md"].

Definition notFoundText (name : string) (suggestions : list string)
  : string :=
  "Composant " ++ JS.dq ++ name ++ JS.dq ++ " non trouvé."
  ++ (if (0 <? Z.of_nat (List.length suggestions))%Z
      then " Suggestions : " ++ JS.join ", " suggestions
      else EmptyString)
  ++ JS.nl ++ "Utilisez list_components pour voir la liste complète.".

Definition unavailableText (entry : ComponentEntry.t) (section : string)
  : string :=
  "Section " ++ JS.dq ++ section ++ JS.dq ++ " non disponible pour "
  ++ ComponentEntry.name entry ++ " (" ++ ComponentEntry.title entry
  ++ "). Sections disponibles : "
  ++ JS.join ", " (ComponentEntry.sections entry).

Definition docText (entry : ComponentEntry.t) (section content : string)
  : string :=
  "# " ++ ComponentEntry.title entry ++ " — " ++ section
  ++ JS.nl ++ JS.nl ++ content.

(** [const entry = index.find(...)]. *)
Definition findEntry (index : list ComponentEntry.t) (name : string)
  : option ComponentEntry.t :=
  find (fun e =>
          (ComponentEntry.name e =? name)
          || (ComponentEntry.name e =? toLowerCase name)) index.

(** [const suggestions = index.filter(...).map(...).slice(0, 5)]. *)
Definition suggestionsFor (index : list ComponentEntry.t) (name : string)
  : list string :=
  JS.arraySlice0 5
    (List.map
       (fun e => ComponentEntry.name e ++ " (" ++ ComponentEntry.title e
                 ++ ")")
       (filter
          (fun e =>
             JS.includes (ComponentEntry.name e) (toLowerCase name)
             || JS.includes (toLowerCase (ComponentEntry.title e))
                            (toLowerCase name))
          index)).

Definition getComponentDoc (index : list ComponentEntry.t)
  (docsDir name section : string) (st : State)
  : ToolTextResult.t * State :=
  match findEntry index name with
  | None =>
      let suggestions := suggestionsFor index name in
      (textResult (notFoundText name suggestions), st)
  | Some entry =>
      if negb (existsb (String.eqb section) (ComponentEntry.sections entry))
      then (textResult (unavailableText entry section), st)
      else
        let filePath := sectionPath docsDir entry section in
        match readFileWithCache filePath st with
        | (None, st1) => (textResult (unavailableText entry section), st1)
        | (Some content, st1) =>
            (textResult (docText entry section content), st1)
        end
  end.

(** *** searchComponents *)

Definition metaMatch (q : string) (entry : ComponentEntry.t) : bool :=
  JS.includes (toLowerCase (ComponentEntry.name entry)) q
  || JS.includes (toLowerCase (ComponentEntry.title entry)) q
  || JS.includes (toLowerCase (ComponentEntry.description entry)) q.

Definition metadataResult (entry : ComponentEntry.t) : SearchResult.t :=
  SearchResult.mk (ComponentEntry.name entry) (ComponentEntry.title entry)
    (ComponentEntry.category entry) "metadata"
    (ComponentEntry.description entry).

(** The excerpt around the match found at [idx]. *)
Definition excerptAt (content q : string) (idx : Z) : string :=
  let start := Z.max 0 (idx - 80) in
  let end_ := Z.min (JS.length content) (idx + JS.length q + 80) in
  (if (0 <? start)%Z then "..." else EmptyString)
  ++ JS.flattenNewlines (JS.slice content start end_)
  ++ (if (end_ <? JS.length content)%Z then "..." else EmptyString).

Definition contentResult (entry : ComponentEntry.t)
  (section excerpt : string) : SearchResult.t :=
  SearchResult.mk (ComponentEntry.name entry) (ComponentEntry.title entry)
    (ComponentEntry.category entry) ("content (" ++ section ++ ")") excerpt.

(** The inner loop [for (const section of entry.sections)]: [continue]
    goes to the next section, [break] leaves with the result pushed. *)
Fixpoint scanSections (docsDir q : string) (entry : ComponentEntry.t)
  (sections : list string) (results : list SearchResult.t) (st : State)
  : list SearchResult.t * State :=
  match sections with
  | [] => (results, st)
  | section :: rest =>
      let filePath := sectionPath docsDir entry section in
      match readFileWithCache filePath st with
      | (None, st1) => scanSections docsDir q entry rest results st1
      | (Some content, st1) =>
          if content =? EmptyString
          then scanSections docsDir q entry rest results st1
          else
            let lowerContent := toLowerCase content in
            let idx := JS.indexOf lowerContent q in
            if negb (idx =? -1)%Z then
              ((results
                ++ [contentResult entry section (excerptAt content q idx)])
                 %list,
               st1)
            else scanSections docsDir q entry rest results st1
      end
  end.

(** The outer loop [for (const entry of index)]. *)
Fixpoint searchLoop (docsDir q : string) (index : list ComponentEntry.t)
  (results : list SearchResult.t) (st : State)
  : list SearchResult.t * State :=
  match index with
  | [] => (results, st)
  | entry :: rest =>
      if metaMatch q entry
      then searchLoop docsDir q rest
             (results ++ [metadataResult entry])%list st
      else
        let (results1, st1) :=
          scanSections docsDir q entry (ComponentEntry.sections entry)
            results st in
        searchLoop docsDir q rest results1 st1
  end.

Definition noResultsText (query : string) : string :=
  "Aucun résultat pour " ++ JS.dq ++ query ++ JS.dq
  ++ ". Essayez un autre terme ou utilisez list_components"
  ++ " pour voir tous les composants.".

Definition resultLine (r : SearchResult.t) : string :=
  "- **" ++ SearchResult.name r ++ "** (" ++ SearchResult.title r ++ ") ["
  ++ SearchResult.category r ++ "] — " ++ SearchResult.matchType r
  ++ JS.nl ++ "  " ++ SearchResult.excerpt r.

Definition resultsText (query : string) (results : list SearchResult.t)
  : string :=
  JS.ofNat (List.length results) ++ " résultat(s) pour " ++ JS.dq ++ query
  ++ JS.dq ++ " :" ++ JS.nl ++ JS.nl
  ++ JS.join (JS.nl ++ JS.nl) (List.map resultLine results).

(** The [results] array when the loops are over. *)
Definition searchResults (index : list ComponentEntry.t)
  (docsDir query : string) (st : State) : list SearchResult.t * State :=
  let q := toLowerCase query in
  searchLoop docsDir q index [] st.

Definition searchComponents (index : list ComponentEntry.t)
  (docsDir query : string) (st : State) : ToolTextResult.t * State :=
  let (results, st1) := searchResults index docsDir query st in
  if (Z.of_nat (List.length results) =? 0)%Z
  then (textResult (noResultsText query), st1)
  else (textResult (resultsText query results), st1).

(** *** searchIcons *)

Definition iconScore (q : string) (icon : IconEntry.t) : Z :=
  let name := toLowerCase (IconEntry.name icon) in
  if name =? q then 3
  else if JS.startsWith name q then 2
  else if JS.includes name q then 1
  else if existsb (fun c => JS.includes (toLowerCase c) q)
                  (IconEntry.classes icon) then 1
  else 0.

Definition iconCandidates (icons : list IconEntry.t)
  (category : option string) : list IconEntry.t :=
  match category with
  | Some cat =>
      if truthy category
      then filter (fun i => IconEntry.category i =? cat) icons
      else icons
  | None => icons
  end.

(** The loop that fills [scored]. *)
Fixpoint scoreLoop (q : string) (candidates : list IconEntry.t)
  (scored : list (IconEntry.t * Z)) : list (IconEntry.t * Z) :=
  match candidates with
  | [] => scored
  | icon :: rest =>
      let score := iconScore q icon in
      if (0 <? score)%Z
      then scoreLoop q rest (scored ++ [(icon, score)])%list
      else scoreLoop q rest scored
  end.

(** [(a, b) => b.score - a.score || a.icon.name.localeCompare(b.icon.name)]:
    the first operand when it is not zero, the second otherwise. *)
Definition compareScored (a b : IconEntry.t * Z) : Z :=
  if negb (snd b - snd a =? 0)%Z then (snd b - snd a)%Z
  else localeCompare (IconEntry.name (fst a)) (IconEntry.name (fst b)).

(** The [limited] array. *)
Definition limitedIcons (icons : list IconEntry.t) (query : string)
  (category : option string) : list (IconEntry.t * Z) :=
  let q := toLowerCase query in
  let candidates := iconCandidates icons category in
  let scored := scoreLoop q candidates [] in
  JS.arraySlice0 20 (JS.sort compareScored scored).

Definition iconLine (icon : IconEntry.t) : string :=
  let variants :=
    if (0 <? Z.of_nat (List.length (IconEntry.variants icon)))%Z
    then JS.join ", " (IconEntry.variants icon)
    else "sans variante" in
  "- **" ++ IconEntry.name icon ++ "** [" ++ IconEntry.category icon
  ++ "] — " ++ variants ++ JS.nl ++ "  Classes : "
  ++ JS.join ", " (IconEntry.classes icon).

Definition searchIcons (icons : list IconEntry.t) (query : string)
  (category : option string) : ToolTextResult.t :=
  let limited := limitedIcons icons query category in
  if (Z.of_nat (List.length limited) =? 0)%Z then
    let catList :=
      match category with
      | Some cat =>
          if truthy category
          then "Catégorie " ++ JS.dq ++ cat ++ JS.dq ++ " filtrée."
          else "Catégories disponibles : " ++ JS.join ", " ICON_CATEGORIES
      | None => "Catégories disponibles : " ++ JS.join ", " ICON_CATEGORIES
      end in
    textResult ("Aucune icône trouvée pour " ++ JS.dq ++ query ++ JS.dq
                ++ ". " ++ catList)
  else
    let lines := List.map (fun p => iconLine (fst p)) limited in
    textResult
      (JS.ofNat (List.length limited) ++ " icône(s) trouvée(s) pour "
       ++ JS.dq ++ query ++ JS.dq
       ++ match category with
          | Some cat =>
              if truthy category
              then " dans " ++ JS.dq ++ cat ++ JS.dq
              else EmptyString
          | None => EmptyString
          end
       ++ " :" ++ JS.nl ++ JS.nl ++ JS.join JS.nl lines).

(** *** getColorTokens *)

(** [if (opt) x = f(opt, x)]: the update is applied when the optional
    string is truthy. *)
Definition whenGiven {A : Type} (o : option string)
  (f : string -> A -> A) (x : A) : A :=
  match o with
  | Some s => if truthy o then f s x else x
  | None => x
  end.

(** [[...new Set(l)]]: the distinct elements, by first occurrence. *)
Fixpoint distinct (l seen : list string) : list string :=
  match l with
  | [] => seen
  | x :: rest =>
      if existsb (String.eqb x) seen then distinct rest seen
      else distinct rest (seen ++ [x])%list
  end.

Definition summaryText (colors : ColorsIndex.t) : string :=
  let contexts :=
    distinct (List.map ColorDecisionToken.context
                (ColorsIndex.decisionTokens colors)) [] in
  let familyNames :=
    List.map (fun f => ColorFamily.name f ++ " (" ++ ColorFamily.category f
                       ++ ")")
      (ColorsIndex.families colors) in
  "Tokens de couleur DSFR disponibles :" ++ JS.nl ++ JS.nl
  ++ "**Contextes :** " ++ JS.join ", " contexts ++ JS.nl
  ++ "**Familles :** " ++ JS.join ", " familyNames ++ JS.nl
  ++ "**Couleurs illustratives :** "
  ++ JS.join ", " (ColorsIndex.illustrativeNames colors) ++ JS.nl ++ JS.nl
  ++ "Utilisez les paramètres context, usage ou family pour filtrer.".

(** The decision tokens that survive the three filters. *)
Definition filterTokens (colors : ColorsIndex.t)
  (context usage family : option string) : list ColorDecisionToken.t :=
  let tokens := ColorsIndex.decisionTokens colors in
  let tokens :=
    whenGiven context
      (fun context tokens =>
         filter (fun t => ColorDecisionToken.context t =? context) tokens)
      tokens in
  let tokens :=
    whenGiven usage
      (fun usage tokens =>
         let u := toLowerCase usage in
         filter
           (fun t =>
              JS.includes (toLowerCase (ColorDecisionToken.token t)) u
              || JS.includes (toLowerCase (ColorDecisionToken.description t))
                             u)
           tokens)
      tokens in
  whenGiven family
    (fun family tokens =>
       let f := toLowerCase family in
       filter
         (fun t => JS.includes (toLowerCase (ColorDecisionToken.token t)) f)
         tokens)
    tokens.

Definition tokenLine (t : ColorDecisionToken.t) : string :=
  "- `" ++ ColorDecisionToken.token t ++ "`" ++ JS.nl ++ "  "
  ++ ColorDecisionToken.description t ++ JS.nl ++ "  Clair : "
  ++ ColorDecisionToken.light t ++ " | Sombre : "
  ++ ColorDecisionToken.dark t.

(** What the decision tokens push on [sections]: one section, or none
    when no token is left. *)
Definition decisionSection (tokens : list ColorDecisionToken.t)
  : list string :=
  if (0 <? Z.of_nat (List.length tokens))%Z
  then ["### Tokens de décision" ++ JS.nl
        ++ JS.join JS.nl (List.map tokenLine tokens)]
  else [].

Definition familySection (fam : ColorFamily.t) : string :=
  let corrLines :=
    List.map
      (fun kv =>
         "  " ++ fst kv ++ " : " ++ fst (snd kv) ++ " (clair) / "
         ++ snd (snd kv) ++ " (sombre)")
      (ColorFamily.correspondences fam) in
  "### Famille " ++ JS.dq ++ ColorFamily.name fam ++ JS.dq ++ " ("
  ++ ColorFamily.category fam ++ ")" ++ JS.nl ++ JS.join JS.nl corrLines.

(** What the families push on [sections]. *)
Definition familySections (colors : ColorsIndex.t) (family : option string)
  : list string :=
  whenGiven family
    (fun family _ =>
       let f := toLowerCase family in
       let matched :=
         filter
           (fun fam =>
              JS.includes (toLowerCase (ColorFamily.name fam)) f
              || JS.includes (toLowerCase (ColorFamily.category fam)) f)
           (ColorsIndex.families colors) in
       List.map familySection matched)
    [].

Definition noTokenText (colors : ColorsIndex.t)
  (context usage family : option string) : string :=
  let parts : list string := [] in
  let parts :=
    whenGiven context
      (fun context parts =>
         (parts ++ [("context=" ++ JS.dq ++ context ++ JS.dq)%string])%list)
      parts in
  let parts :=
    whenGiven usage
      (fun usage parts =>
         (parts ++ [("usage=" ++ JS.dq ++ usage ++ JS.dq)%string])%list)
      parts in
  let parts :=
    whenGiven family
      (fun family parts =>
         (parts ++ [("family=" ++ JS.dq ++ family ++ JS.dq)%string])%list)
      parts in
  "Aucun token trouvé pour " ++ JS.join ", " parts
  ++ ". Contextes disponibles : background, text, artwork. Familles : "
  ++ JS.join ", " (List.map ColorFamily.name (ColorsIndex.families colors)).

Definition getColorTokens (colors : ColorsIndex.t)
  (context usage family : option string) : ToolTextResult.t :=
  if negb (truthy context) && negb (truthy usage) && negb (truthy family)
  then textResult (summaryText colors)
  else
    let tokens := filterTokens colors context usage family in
    let sections :=
      (decisionSection tokens ++ familySections colors family)%list in
    if (Z.of_nat (List.length sections) =? 0)%Z
    then textResult (noTokenText colors context usage family)
    else textResult (JS.join (JS.nl ++ JS.nl) sections).

(** ** Properties of the engines *)

(** What the development assumes of the host's [toLowerCase]: lowering
    is idempotent and keeps the empty string. *)
Hypothesis toLowerCase_idem :
  forall s, toLowerCase (toLowerCase s) = toLowerCase s.
Hypothesis toLowerCase_empty : toLowerCase EmptyString = EmptyString.

(** *** The document resolver *)

Definition noEntryNamed (index : list ComponentEntry.t) (name : string)
  : Prop :=
  Forall (fun e => ComponentEntry.name e <> name
                   /\ ComponentEntry.name e <> toLowerCase name) index.

Lemma findEntry_None (index : list ComponentEntry.t) (name : string) :
  findEntry index name = None <-> noEntryNamed index name.
Proof.
  unfold findEntry, noEntryNamed.
  induction index as [|e index IH]; simpl.
  - split; [constructor | reflexivity].
  - destruct (ComponentEntry.name e =? name) eqn:E1; simpl.
    + apply String.eqb_eq in E1. split; [discriminate|].
      intros Hf. inversion Hf as [|? ? [Hn _] ?]; subst. now elim Hn.
    + destruct (ComponentEntry.name e =? toLowerCase name) eqn:E2.
      * apply String.eqb_eq in E2. split; [discriminate|].
        intros Hf. inversion Hf as [|? ? [_ Hn] ?]; subst. now elim Hn.
      * apply String.eqb_neq in E1, E2. rewrite IH.
        split; [intros H; constructor; [now split | exact H]
               | now inversion 1].
Qed.

Lemma findEntry_Some (index : list ComponentEntry.t) (name : string)
  (entry : ComponentEntry.t) :
  findEntry index name = Some entry ->
  In entry index
  /\ (ComponentEntry.name entry = name
      \/ ComponentEntry.name entry = toLowerCase name).
Proof.
  unfold findEntry. intros H. apply find_some in H. destruct H as [Hin Hp].
  split; [exact Hin|].
  apply orb_true_iff in Hp. destruct Hp as [Hp|Hp];
    apply String.eqb_eq in Hp; [now left | now right].
Qed.

Lemma includes_section (section : string) (sections : list string) :
  existsb (String.eqb section) sections = true <-> In section sections.
Proof.
  rewrite existsb_exists. split.
  - intros (x & Hin & E). apply String.eqb_eq in E. now subst.
  - intros Hin. exists section. split; [exact Hin | apply String.eqb_refl].
Qed.

(** C7.  When no entry of the index is named by the query, neither as
    given nor lower-cased, [getComponentDoc] returns (it does not raise,
    and it leaves the cache alone) the not-found payload that quotes the
    query as given and lists at most five suggestions: the [name (title)]
    of the first five entries, in index order, among exactly those whose
    name or lower-cased title contains the lower-cased query.  With no
    such entry the payload carries no suggestion list. *)
Theorem C7_not_found_payload
  (index : list ComponentEntry.t) (docsDir name section : string)
  (st : State) :
  noEntryNamed index name ->
  let matching :=
    filter (fun e =>
              JS.includes (ComponentEntry.name e) (toLowerCase name)
              || JS.includes (toLowerCase (ComponentEntry.title e))
                             (toLowerCase name)) index in
  let suggestions :=
    List.map (fun e => ComponentEntry.name e ++ " ("
                       ++ ComponentEntry.title e ++ ")")
      (firstn 5 matching) in
  (List.length suggestions <= 5)%nat /\
  getComponentDoc index docsDir name section st =
  (textResult
     ("Composant " ++ JS.dq ++ name ++ JS.dq ++ " non trouvé."
      ++ match suggestions with
         | [] => EmptyString
         | _ :: _ => " Suggestions : " ++ JS.join ", " suggestions
         end
      ++ JS.nl ++ "Utilisez list_components pour voir la liste complète."),
   st).
Proof.
  intros Hnone matching suggestions.
  apply findEntry_None in Hnone.
  split.
  - unfold suggestions. rewrite length_map, length_firstn.
    apply Nat.le_min_l.
  - unfold getComponentDoc. rewrite Hnone. cbv zeta.
    assert (E : suggestionsFor index name = suggestions).
    { unfold suggestionsFor, suggestions, matching, JS.arraySlice0.
      now rewrite firstn_map. }
    rewrite E. unfold notFoundText.
    destruct suggestions; reflexivity.
Qed.

(** C8.  For the entry that the name selects, [getComponentDoc] returns
    one and the same unavailable-section text, which names the entry and
    lists its sections as the index has them, both when the requested
    section is not among the sections of the entry and when it is but the
    read of its file yields not-found; it returns in both cases. *)
Theorem C8_unavailable_section_payload
  (index : list ComponentEntry.t) (docsDir name section : string)
  (st : State) (entry : ComponentEntry.t) :
  findEntry index name = Some entry ->
  let payload :=
    textResult
      ("Section " ++ JS.dq ++ section ++ JS.dq ++ " non disponible pour "
       ++ ComponentEntry.name entry ++ " (" ++ ComponentEntry.title entry
       ++ "). Sections disponibles : "
       ++ JS.join ", " (ComponentEntry.sections entry)) in
  (~ In section (ComponentEntry.sections entry) ->
   getComponentDoc index docsDir name section st = (payload, st))
  /\
  (In section (ComponentEntry.sections entry) ->
   fst (readFileWithCache (sectionPath docsDir entry section) st) = None ->
   fst (getComponentDoc index docsDir name section st) = payload).
Proof.
  intros Hfind payload. unfold getComponentDoc. rewrite Hfind. split.
  - intros Hnot.
    destruct (existsb (String.eqb section) (ComponentEntry.sections entry))
      eqn:E; [|reflexivity].
    apply includes_section in E. contradiction.
  - intros Hin Hread. apply includes_section in Hin. rewrite Hin. simpl.
    destruct (readFileWithCache (sectionPath docsDir entry section) st)
      as [[content|] st1]; [discriminate | reflexivity].
Qed.

Lemma findEntry_lower (index : list ComponentEntry.t) (name : string) :
  Forall (fun e => toLowerCase (ComponentEntry.name e) = ComponentEntry.name e)
         index ->
  findEntry index (toLowerCase name) = findEntry index name.
Proof using toLowerCase_idem.
  unfold findEntry. induction 1 as [|e index He Hall IH]; simpl.
  - reflexivity.
  - rewrite IH, toLowerCase_idem, orb_diag.
    destruct (ComponentEntry.name e =? name) eqn:E; [|reflexivity].
    apply String.eqb_eq in E. simpl.
    rewrite <- E, He, String.eqb_refl. reflexivity.
Qed.

(** C6 (amended).  On an index whose entry names are in lower case, the
    lookup of a name and the lookup of its lower-cased form select the
    same entry; whenever an entry is selected the two calls return the
    same payload and leave the same cache, for every section and every
    cache; when none is selected both return the not-found payload with
    the same suggestions, each quoting the query as it was given. *)
Theorem C6_lookup_ignores_case
  (index : list ComponentEntry.t) (docsDir name section : string)
  (st : State) :
  Forall (fun e => toLowerCase (ComponentEntry.name e) = ComponentEntry.name e)
         index ->
  findEntry index (toLowerCase name) = findEntry index name
  /\
  (findEntry index name <> None ->
   getComponentDoc index docsDir (toLowerCase name) section st
   = getComponentDoc index docsDir name section st)
  /\
  (findEntry index name = None ->
   suggestionsFor index (toLowerCase name) = suggestionsFor index name
   /\ getComponentDoc index docsDir name section st
      = (textResult (notFoundText name (suggestionsFor index name)), st)
   /\ getComponentDoc index docsDir (toLowerCase name) section st
      = (textResult
           (notFoundText (toLowerCase name) (suggestionsFor index name)),
         st)).
Proof using toLowerCase_idem.
  intros Hlow. pose proof (findEntry_lower index name Hlow) as Hfind.
  assert (Hsugg : suggestionsFor index (toLowerCase name)
                  = suggestionsFor index name).
  { unfold suggestionsFor. now rewrite toLowerCase_idem. }
  split; [exact Hfind|]. split.
  - intros Hsome. unfold getComponentDoc. rewrite Hfind.
    destruct (findEntry index name); [reflexivity | contradiction].
  - intros Hnone. split; [exact Hsugg|].
    unfold getComponentDoc. rewrite Hfind, Hnone, Hsugg. now split.
Qed.

(** *** The colour tokens *)

Lemma whenGiven_truthy {A : Type} (s : string) (f : string -> A -> A)
  (x : A) :
  s <> EmptyString -> whenGiven (Some s) f x = f s x.
Proof.
  intros Hs. unfold whenGiven, truthy.
  apply String.eqb_neq in Hs. now rewrite Hs.
Qed.

Lemma whenGiven_filter_incl {A : Type} (o : option string)
  (p : string -> A -> bool) (l : list A) (x : A) :
  In x (whenGiven o (fun s l => filter (p s) l) l) -> In x l.
Proof.
  unfold whenGiven. destruct o as [s|]; [|auto].
  destruct (truthy (Some s)); [|auto].
  intros H. now apply filter_In in H.
Qed.

(** C9.  When a context is given (a non-empty string), every decision
    token that survives the filters has exactly that context and comes
    from the index, whatever the other two filters are: a token of the
    index with another context is left out (with [context] given as
    [background], every token whose context is [text] or [artwork]).
    The decision-token section of the answer is rendered from the
    surviving tokens alone, and is absent when there is none. *)
Theorem C9_context_filter_is_exact
  (colors : ColorsIndex.t) (context : string) (usage family : option string) :
  context <> EmptyString ->
  let tokens := filterTokens colors (Some context) usage family in
  Forall (fun t => ColorDecisionToken.context t = context) tokens
  /\ (forall t, In t tokens -> In t (ColorsIndex.decisionTokens colors))
  /\ (forall t, ColorDecisionToken.context t <> context -> ~ In t tokens)
  /\ decisionSection tokens =
     match tokens with
     | [] => []
     | _ :: _ =>
         ["### Tokens de décision" ++ JS.nl
          ++ JS.join JS.nl (List.map tokenLine tokens)]
     end
  /\ getColorTokens colors (Some context) usage family =
     textResult
       match (decisionSection tokens ++ familySections colors family)%list
       with
       | [] => noTokenText colors (Some context) usage family
       | sections => JS.join (JS.nl ++ JS.nl) sections
       end.
Proof.
  intros Hctx tokens.
  assert (Hall : forall t, In t tokens ->
                   In t (ColorsIndex.decisionTokens colors)
                   /\ ColorDecisionToken.context t = context).
  { intros t Hin. unfold tokens, filterTokens in Hin.
    apply whenGiven_filter_incl in Hin.
    apply whenGiven_filter_incl in Hin.
    rewrite whenGiven_truthy in Hin by exact Hctx.
    apply filter_In in Hin. destruct Hin as [Hin E].
    apply String.eqb_eq in E. now split. }
  split; [|split; [|split; [|split]]].
  - apply Forall_forall. intros t Hin. now apply Hall.
  - intros t Hin. now apply Hall.
  - intros t Hne Hin. apply Hall in Hin. now apply Hne.
  - unfold decisionSection. now destruct tokens.
  - unfold getColorTokens.
    assert (T : truthy (Some context) = true).
    { unfold truthy. apply String.eqb_neq in Hctx. now rewrite Hctx. }
    rewrite T. cbn [negb andb]. fold tokens.
    destruct (decisionSection tokens ++ familySections colors family)%list;
      reflexivity.
Qed.

(** *** The icon search *)

(** What the development assumes of the host's [localeCompare]: it is a
    consistent comparator (a total preorder on names). *)
Hypothesis localeCompare_trans :
  forall a b c,
    (localeCompare a b <= 0)%Z -> (localeCompare b c <= 0)%Z ->
    (localeCompare a c <= 0)%Z.
Hypothesis localeCompare_total :
  forall a b, (0 < localeCompare a b)%Z -> (localeCompare b a <= 0)%Z.

(** Descending score, and ascending name among equal scores. *)
Definition scoredOrder (a b : IconEntry.t * Z) : Prop :=
  (snd b < snd a)%Z
  \/ (snd a = snd b
      /\ (localeCompare (IconEntry.name (fst a)) (IconEntry.name (fst b))
          <= 0)%Z).

Lemma compareScored_inOrder (a b : IconEntry.t * Z) :
  JS.inOrder (IconEntry.t * Z) compareScored a b <-> scoredOrder a b.
Proof.
  unfold JS.inOrder, compareScored, scoredOrder.
  destruct (snd b - snd a =? 0)%Z eqn:E; simpl.
  - apply Z.eqb_eq in E. split; [intros H; right; split; [lia | exact H]|].
    intros [H|[_ H]]; [lia | exact H].
  - apply Z.eqb_neq in E. split; [intros H; left; lia|].
    intros [H|[H _]]; lia.
Qed.

Lemma compareScored_trans (a b c : IconEntry.t * Z) :
  JS.inOrder _ compareScored a b -> JS.inOrder _ compareScored b c ->
  JS.inOrder _ compareScored a c.
Proof using localeCompare_trans.
  rewrite !compareScored_inOrder. unfold scoredOrder.
  intros [H1|[H1 L1]] [H2|[H2 L2]]; try (left; lia).
  right. split; [lia|]. eapply localeCompare_trans; eauto.
Qed.

Lemma compareScored_total (a b : IconEntry.t * Z) :
  (0 < compareScored a b)%Z -> JS.inOrder _ compareScored b a.
Proof using localeCompare_total.
  rewrite compareScored_inOrder. unfold compareScored, scoredOrder.
  destruct (snd b - snd a =? 0)%Z eqn:E; simpl.
  - apply Z.eqb_eq in E. intros H. right. split; [lia|].
    now apply localeCompare_total.
  - intros H. left. lia.
Qed.

Lemma scoreLoop_filter (q : string) (candidates : list IconEntry.t)
  (scored : list (IconEntry.t * Z)) :
  scoreLoop q candidates scored =
  (scored
   ++ List.map (fun i => (i, iconScore q i))
        (filter (fun i => (0 <? iconScore q i)%Z) candidates))%list.
Proof.
  revert scored. induction candidates as [|icon rest IH]; intros scored;
    simpl.
  - now rewrite app_nil_r.
  - destruct (0 <? iconScore q icon)%Z; rewrite IH; [|reflexivity].
    now rewrite <- app_assoc.
Qed.

Lemma StronglySorted_weaken {A : Type} (R S : A -> A -> Prop) (l : list A) :
  (forall a b, R a b -> S a b) -> StronglySorted R l -> StronglySorted S l.
Proof.
  intros HRS. induction 1 as [|a l Hl IH Ha]; constructor; [exact IH|].
  eapply Forall_impl; [|exact Ha]. auto.
Qed.

(** C5.  For every icon list, query and optional category: the candidates
    are the icons of the given category (all of them when none is given);
    the score of a candidate is 3 when its lower-cased name is the
    lower-cased query, else 2 when it starts with it, else 1 when it, or
    one of the lower-cased class strings, contains it, else 0; the answer
    is the first twenty of a ranking that holds exactly the candidates of
    positive score, by descending score and, among equal scores, in the
    ascending order of names that [localeCompare] defines.  In
    particular, wherever an icon that is not named exactly by the query
    (one whose name merely starts with it, say) appears in the answer,
    every candidate named exactly by the query appears at an earlier
    position. *)
Theorem C5_icon_ranking
  (icons : list IconEntry.t) (query : string) (category : option string) :
  let q := toLowerCase query in
  let candidates := iconCandidates icons category in
  let limited := limitedIcons icons query category in
  candidates =
    match category with
    | None => icons
    | Some cat =>
        if cat =? EmptyString then icons
        else filter (fun i => IconEntry.category i =? cat) icons
    end
  /\ (forall icon,
        let name := toLowerCase (IconEntry.name icon) in
        iconScore q icon =
        if name =? q then 3%Z
        else if JS.startsWith name q then 2%Z
        else if JS.includes name q
                || existsb (fun c => JS.includes (toLowerCase c) q)
                           (IconEntry.classes icon)
             then 1%Z
        else 0%Z)
  /\ (exists ranked : list (IconEntry.t * Z),
        Permutation ranked
          (List.map (fun i => (i, iconScore q i))
             (filter (fun i => (0 <? iconScore q i)%Z) candidates))
        /\ StronglySorted scoredOrder ranked
        /\ limited = firstn 20 ranked)
  /\ (List.length limited <= 20)%nat
  /\ (forall (a : IconEntry.t) (b : IconEntry.t * Z) (j : nat),
        In a candidates ->
        toLowerCase (IconEntry.name a) = q ->
        nth_error limited j = Some b ->
        toLowerCase (IconEntry.name (fst b)) <> q ->
        exists i, (i < j)%nat /\ nth_error limited i = Some (a, 3%Z)).
Proof using localeCompare_trans localeCompare_total.
  intros q candidates limited.
  set (scored := List.map (fun i => (i, iconScore q i))
                   (filter (fun i => (0 <? iconScore q i)%Z) candidates)).
  set (ranked := JS.sort compareScored scored).
  assert (Hlim : limited = firstn 20 ranked).
  { unfold limited, limitedIcons, JS.arraySlice0, ranked, scored.
    now rewrite scoreLoop_filter. }
  assert (Hperm : Permutation ranked scored)
    by apply JS.sort_Permutation.
  assert (Hsorted : StronglySorted scoredOrder ranked).
  { apply (StronglySorted_weaken (JS.inOrder _ compareScored)).
    - intros a b. apply compareScored_inOrder.
    - apply JS.sort_StronglySorted.
      + exact compareScored_trans.
      + exact compareScored_total. }
  split; [|split; [|split; [|split]]].
  - unfold candidates, iconCandidates, truthy.
    destruct category as [cat|]; [|reflexivity].
    now destruct (cat =? EmptyString).
  - intros icon name. unfold iconScore. fold name.
    destruct (name =? q); [reflexivity|].
    destruct (JS.startsWith name q); [reflexivity|].
    destruct (JS.includes name q); reflexivity.
  - exists ranked. auto.
  - rewrite Hlim, length_firstn. lia.
  - intros a b j Ha Hexact Hj Hnot.
    assert (Hsa : iconScore q a = 3%Z).
    { unfold iconScore. rewrite Hexact. now rewrite String.eqb_refl. }
    assert (Hina : In (a, 3%Z) ranked).
    { apply (Permutation_in _ (Permutation_sym Hperm)).
      unfold scored. apply in_map_iff. exists a.
      split; [now rewrite Hsa|].
      apply filter_In. split; [exact Ha|]. now rewrite Hsa. }
    rewrite Hlim, nth_error_firstn in Hj.
    destruct (Nat.ltb j 20) eqn:Hj20; [|discriminate].
    apply Nat.ltb_lt in Hj20.
    assert (Hsb : (snd b <= 2)%Z).
    { assert (Hinb : In b scored).
      { apply (Permutation_in _ Hperm). eapply nth_error_In; eauto. }
      unfold scored in Hinb. apply in_map_iff in Hinb.
      destruct Hinb as (ib & <- & _). simpl in *.
      unfold iconScore. apply String.eqb_neq in Hnot. rewrite Hnot.
      repeat match goal with |- context [if ?c then _ else _] =>
               destruct c end; lia. }
    destruct (In_nth_error _ _ Hina) as [i Hi].
    assert (Hij : (i < j)%nat).
    { destruct (Nat.lt_trichotomy i j) as [L|[E|G]]; [exact L| |].
      - subst i. rewrite Hi in Hj. inversion Hj; subst b. simpl in Hsb. lia.
      - pose proof (JS.StronglySorted_nth_error scoredOrder ranked j i b
                      (a, 3%Z) Hsorted G Hj Hi) as Hord.
        unfold scoredOrder in Hord. simpl in Hord. lia. }
    exists i. split; [exact Hij|].
    rewrite Hlim, nth_error_firstn.
    assert (L : Nat.ltb i 20 = true) by (apply Nat.ltb_lt; lia).
    now rewrite L.
Qed.

(** *** The component search *)

(** The text of a file, as the file system has it. *)
Definition fileContent (filePath : string) : option string :=
  if existsSync filePath then Some (readFileSync filePath) else None.

(** The cache holds texts read from the files: every binding maps a path
    to the text of the file at that path.  [readFileWithCache], the only
    writer of the cache, keeps it so. *)
Definition coherent (c : LRUCache.t string string) : Prop :=
  Forall (fun kv => fileContent (fst kv) = Some (snd kv))
         (LRUCache.map string string c).

Definition optionToList {A : Type} (o : option A) : list A :=
  match o with Some x => [x] | None => [] end.

(** The file of [section] holds the query. *)
Definition sectionHolds (docsDir q : string) (entry : ComponentEntry.t)
  (section : string) : bool :=
  match fileContent (sectionPath docsDir entry section) with
  | Some content => JS.includes (toLowerCase content) q
  | None => false
  end.

(** The result that the design document gives to one entry: the metadata
    result on a metadata match; otherwise the content result of the first
    section, in declared order, whose file holds the query; otherwise
    none. *)
Definition contentSpec (docsDir q : string) (entry : ComponentEntry.t)
  (sections : list string) : option SearchResult.t :=
  match find (sectionHolds docsDir q entry) sections with
  | Some section =>
      match fileContent (sectionPath docsDir entry section) with
      | Some content =>
          Some (contentResult entry section
                  (excerptAt content q
                     (JS.indexOf (toLowerCase content) q)))
      | None => None
      end
  | None => None
  end.

Definition entrySpec (docsDir q : string) (entry : ComponentEntry.t)
  : option SearchResult.t :=
  if metaMatch q entry then Some (metadataResult entry)
  else contentSpec docsDir q entry (ComponentEntry.sections entry).

(** What the scan of the sections of one entry may produce, on any
    cache: no result after every section was read, or one content result
    for a section of the entry, the sections before it having been read
    in declared order and none after it. *)
Definition scanShape (docsDir : string) (entry : ComponentEntry.t)
  (sections : list string) (o : option SearchResult.t) (ps : list string)
  : Prop :=
  (o = None /\ ps = List.map (sectionPath docsDir entry) sections)
  \/ (exists pre section post excerpt,
        sections = (pre ++ section :: post)%list
        /\ ps = List.map (sectionPath docsDir entry) (pre ++ [section])%list
        /\ o = Some (contentResult entry section excerpt)).

(** What one entry contributes, on any cache: its result, if any, and
    the paths handed to [readFileWithCache] on its behalf. *)
Definition entryTrace (docsDir q : string) (entry : ComponentEntry.t)
  (t : option SearchResult.t * list string) : Prop :=
  if metaMatch q entry
  then fst t = Some (metadataResult entry) /\ snd t = []
  else scanShape docsDir entry (ComponentEntry.sections entry) (fst t) (snd t).

Lemma readFileWithCache_reads (filePath : string) (st : State) :
  reads (snd (readFileWithCache filePath st)) = (reads st ++ [filePath])%list.
Proof.
  unfold readFileWithCache.
  destruct (cacheGet filePath (cache st)) as [[cached|] c1];
    [reflexivity|].
  now destruct (negb (existsSync filePath)).
Qed.

Lemma readFileWithCache_coherent (filePath : string) (st : State) :
  coherent (cache st) ->
  fst (readFileWithCache filePath st) = fileContent filePath
  /\ coherent (cache (snd (readFileWithCache filePath st))).
Proof.
  intros Hco. unfold readFileWithCache, cacheGet, cacheSet.
  pose proof (LRUCache.get_Forall string string string_dec _ filePath
                (cache st) Hco) as Hget.
  unfold LRUCache.get in *.
  destruct (LRUCache.Map_get string string string_dec
              (LRUCache.map string string (cache st)) filePath)
    as [cached|] eqn:E.
  - cbn [fst snd cache]. split; [|exact Hget].
    apply LRUCache.Map_get_Some_In in E.
    unfold coherent in Hco. rewrite Forall_forall in Hco.
    symmetry. apply (Hco (filePath, cached) E).
  - unfold fileContent. destruct (existsSync filePath) eqn:Ex; simpl.
    + split; [reflexivity|].
      apply LRUCache.set_Forall; [|exact Hco].
      unfold fileContent. simpl. now rewrite Ex.
    + split; [reflexivity | exact Hco].
Qed.

Lemma includes_in_empty (q : string) :
  q <> EmptyString -> JS.includes EmptyString q = false.
Proof. intros Hq. destruct q; [contradiction | reflexivity]. Qed.

Lemma metaMatch_empty (entry : ComponentEntry.t) :
  metaMatch EmptyString entry = true.
Proof. unfold metaMatch. now rewrite JS.includes_empty. Qed.

Lemma metaMatch_false_query (q : string) (entry : ComponentEntry.t) :
  metaMatch q entry = false -> q <> EmptyString.
Proof. intros H ->. rewrite metaMatch_empty in H. discriminate. Qed.

(** The inner loop: what it returns on any cache, and that it returns
    the result of the design document on a coherent one. *)
Lemma scanSections_spec (docsDir q : string) (entry : ComponentEntry.t)
  (sections : list string) (results : list SearchResult.t) (st : State) :
  exists o ps st1,
    scanSections docsDir q entry sections results st
    = ((results ++ optionToList o)%list, st1)
    /\ reads st1 = (reads st ++ ps)%list
    /\ scanShape docsDir entry sections o ps
    /\ (q <> EmptyString -> coherent (cache st) ->
        o = contentSpec docsDir q entry sections /\ coherent (cache st1)).
Proof using toLowerCase_empty.
  revert st. induction sections as [|section rest IH]; intros st.
  - exists None, [], st. simpl. rewrite !app_nil_r.
    repeat split; auto. left. now split.
  - simpl scanSections.
    pose proof (readFileWithCache_reads
                  (sectionPath docsDir entry section) st) as Hr.
    pose proof (readFileWithCache_coherent
                  (sectionPath docsDir entry section) st) as Hc.
    destruct (readFileWithCache (sectionPath docsDir entry section) st)
      as [content st0] eqn:Eread.
    cbn [fst snd] in Hr, Hc.
    (* the three ways to the next section *)
    assert (Hnext :
      forall (Hmiss : q <> EmptyString -> coherent (cache st) ->
                      sectionHolds docsDir q entry section = false),
      exists o ps st1,
        scanSections docsDir q entry rest results st0
        = ((results ++ optionToList o)%list, st1)
        /\ reads st1 = (reads st ++ ps)%list
        /\ scanShape docsDir entry (section :: rest) o ps
        /\ (q <> EmptyString -> coherent (cache st) ->
            o = contentSpec docsDir q entry (section :: rest)
            /\ coherent (cache st1))).
    { intros Hmiss.
      destruct (IH st0) as (o & ps & st1 & Hscan & Hreads & Hshape & Hspec).
      exists o, (sectionPath docsDir entry section :: ps), st1.
      split; [exact Hscan|]. split.
      { rewrite Hreads, Hr, <- app_assoc. reflexivity. }
      split.
      { destruct Hshape as [[-> ->]|(pre & s0 & post & ex & -> & -> & ->)].
        - left. now split.
        - right. exists (section :: pre), s0, post, ex. now repeat split. }
      intros Hq Hco. destruct (Hc Hco) as [_ Hco0].
      destruct (Hspec Hq Hco0) as [-> Hco1]. split; [|exact Hco1].
      unfold contentSpec. simpl find. now rewrite (Hmiss Hq Hco). }
    destruct content as [content|].
    + destruct (content =? EmptyString) eqn:Eempty.
      * apply Hnext. intros Hq Hco. destruct (Hc Hco) as [Hfile _].
        unfold sectionHolds. rewrite <- Hfile.
        apply String.eqb_eq in Eempty. subst content.
        rewrite toLowerCase_empty. now apply includes_in_empty.
      * destruct (JS.indexOf (toLowerCase content) q =? -1)%Z eqn:Eidx;
          cbn [negb].
        -- apply Hnext. intros Hq Hco. destruct (Hc Hco) as [Hfile _].
           unfold sectionHolds. rewrite <- Hfile. unfold JS.includes.
           now rewrite Eidx.
        -- exists (Some (contentResult entry section
                           (excerptAt content q
                              (JS.indexOf (toLowerCase content) q)))),
                  [sectionPath docsDir entry section], st0.
           split; [reflexivity|]. split; [exact Hr|]. split.
           { right. exists [], section, rest. eexists. now repeat split. }
           intros Hq Hco. destruct (Hc Hco) as [Hfile Hco0].
           split; [|exact Hco0].
           unfold contentSpec. simpl find. unfold sectionHolds at 1.
           rewrite <- Hfile. unfold JS.includes. rewrite Eidx.
           cbn [negb]. now rewrite <- Hfile.
    + apply Hnext. intros Hq Hco. destruct (Hc Hco) as [Hfile _].
      unfold sectionHolds. now rewrite <- Hfile.
Qed.

(** The outer loop. *)
Lemma searchLoop_spec (docsDir q : string) (index : list ComponentEntry.t)
  (results : list SearchResult.t) (st : State) :
  exists traces st1,
    searchLoop docsDir q index results st
    = ((results ++ flat_map (fun t => optionToList (fst t)) traces)%list, st1)
    /\ Forall2 (entryTrace docsDir q) index traces
    /\ reads st1 = (reads st ++ flat_map snd traces)%list
    /\ (coherent (cache st) ->
        List.map fst traces = List.map (entrySpec docsDir q) index
        /\ coherent (cache st1)).
Proof using toLowerCase_empty.
  revert results st. induction index as [|entry rest IH]; intros results st.
  - exists [], st. simpl. rewrite !app_nil_r. repeat split; auto.
  - simpl searchLoop. destruct (metaMatch q entry) eqn:Emeta.
    + destruct (IH (results ++ [metadataResult entry])%list st)
        as (traces & st1 & Hloop & Htr & Hreads & Hspec).
      exists ((Some (metadataResult entry), []) :: traces), st1.
      split; [rewrite Hloop; simpl; now rewrite <- app_assoc|].
      split; [constructor; [|exact Htr]; unfold entryTrace;
              rewrite Emeta; now split|].
      split; [exact Hreads|].
      intros Hco. destruct (Hspec Hco) as [Hfst Hco1].
      split; [|exact Hco1]. simpl. rewrite Hfst. unfold entrySpec.
      now rewrite Emeta.
    + destruct (scanSections_spec docsDir q entry
                  (ComponentEntry.sections entry) results st)
        as (o & ps & st0 & Hscan & Hreads0 & Hshape & Hspec0).
      rewrite Hscan.
      destruct (IH (results ++ optionToList o)%list st0)
        as (traces & st1 & Hloop & Htr & Hreads & Hspec).
      exists ((o, ps) :: traces), st1.
      split; [rewrite Hloop; simpl; now rewrite <- app_assoc|].
      split; [constructor; [|exact Htr]; unfold entryTrace;
              now rewrite Emeta|].
      split; [rewrite Hreads, Hreads0; simpl; now rewrite <- app_assoc|].
      intros Hco.
      destruct (Hspec0 (metaMatch_false_query q entry Emeta) Hco)
        as [-> Hco0].
      destruct (Hspec Hco0) as [Hfst Hco1].
      split; [|exact Hco1]. simpl. rewrite Hfst. unfold entrySpec.
      now rewrite Emeta.
Qed.

Lemma flat_map_optionToList_length {A B : Type} (f : A -> option B)
  (l : list A) :
  (List.length (flat_map (fun x => optionToList (f x)) l) <= List.length l)%nat.
Proof.
  induction l as [|x l IH]; simpl; [lia|].
  rewrite length_app. destruct (f x); simpl; lia.
Qed.

Lemma flat_map_through_map {A B C : Type} (g : A -> B) (f : B -> list C)
  (l : list A) :
  flat_map (fun x => f (g x)) l = flat_map f (List.map g l).
Proof. induction l as [|x l IH]; simpl; [reflexivity | now rewrite IH]. Qed.

(** The text that [readFileWithCache] returns for a path in a state:
    the cached text when the path is in the cache, the text of the file
    otherwise. *)
Definition servedText (st : State) (filePath : string) : option string :=
  match fst (cacheGet filePath (cache st)) with
  | Some text => Some text
  | None => if existsSync filePath then Some (readFileSync filePath) else None
  end.

Lemma readFileWithCache_served (filePath : string) (st : State) :
  fst (readFileWithCache filePath st) = servedText st filePath.
Proof.
  unfold readFileWithCache, servedText.
  destruct (cacheGet filePath (cache st)) as [[cached|] c1]; [reflexivity|].
  cbn [fst]. now destruct (existsSync filePath).
Qed.

(** The scan of the sections of one entry, in the words of the design
    document: the answer is the result of the first section, in the
    order given, whose text as [readFileWithCache] returns it when the
    section is reached holds the query ([holds]); the sections before it
    were read, none after it; there is no answer when no section is
    such.  [pathOf] gives the file of a section and [resultOf] the
    result for a section and its text. *)
Inductive firstServed (holds : string -> bool) (pathOf : string -> string)
  (resultOf : string -> string -> SearchResult.t)
  : list string -> State -> option SearchResult.t -> State -> Prop :=
| firstServed_none (st : State) :
    firstServed holds pathOf resultOf [] st None st
| firstServed_here (section : string) (rest : list string) (st : State)
    (text : string) :
    servedText st (pathOf section) = Some text ->
    holds text = true ->
    firstServed holds pathOf resultOf (section :: rest) st
      (Some (resultOf section text))
      (snd (readFileWithCache (pathOf section) st))
| firstServed_later (section : string) (rest : list string) (st st1 : State)
    (o : option SearchResult.t) :
    (forall text, servedText st (pathOf section) = Some text ->
                  holds text = false) ->
    firstServed holds pathOf resultOf rest
      (snd (readFileWithCache (pathOf section) st)) o st1 ->
    firstServed holds pathOf resultOf (section :: rest) st o st1.

(** The run over the index, in the words of the design document: an
    entry that matches on its metadata ([isMetadata]) answers with its
    metadata result and leaves the state as it is; another entry answers
    with the outcome of the scan of its sections; the answers come in
    index order. *)
Inductive answered (isMetadata : ComponentEntry.t -> bool)
  (metadataOf : ComponentEntry.t -> SearchResult.t)
  (holds : string -> bool)
  (pathOf : ComponentEntry.t -> string -> string)
  (contentOf : ComponentEntry.t -> string -> string -> SearchResult.t)
  : list ComponentEntry.t -> State -> list SearchResult.t -> State -> Prop :=
| answered_nil (st : State) :
    answered isMetadata metadataOf holds pathOf contentOf [] st [] st
| answered_metadata (entry : ComponentEntry.t)
    (rest : list ComponentEntry.t) (st st1 : State)
    (results : list SearchResult.t) :
    isMetadata entry = true ->
    answered isMetadata metadataOf holds pathOf contentOf rest st results
      st1 ->
    answered isMetadata metadataOf holds pathOf contentOf (entry :: rest) st
      (metadataOf entry :: results) st1
| answered_content (entry : ComponentEntry.t)
    (rest : list ComponentEntry.t) (st st0 st1 : State)
    (o : option SearchResult.t) (results : list SearchResult.t) :
    isMetadata entry = false ->
    firstServed holds (pathOf entry) (contentOf entry)
      (ComponentEntry.sections entry) st o st0 ->
    answered isMetadata metadataOf holds pathOf contentOf rest st0 results
      st1 ->
    answered isMetadata metadataOf holds pathOf contentOf (entry :: rest) st
      (optionToList o ++ results)%list st1.

Lemma scanSections_firstServed (docsDir q : string)
  (entry : ComponentEntry.t) (sections : list string)
  (results : list SearchResult.t) (st : State) :
  q <> EmptyString ->
  exists o st1,
    scanSections docsDir q entry sections results st
    = ((results ++ optionToList o)%list, st1)
    /\ firstServed (fun text => JS.includes (toLowerCase text) q)
         (sectionPath docsDir entry)
         (fun section text =>
            contentResult entry section
              (excerptAt text q (JS.indexOf (toLowerCase text) q)))
         sections st o st1.
Proof using toLowerCase_empty.
  intros Hq. revert st. induction sections as [|section rest IH]; intros st.
  - exists None, st. simpl. rewrite app_nil_r. split; [reflexivity|].
    constructor.
  - simpl scanSections.
    pose proof (readFileWithCache_served
                  (sectionPath docsDir entry section) st) as Hserved.
    destruct (IH (snd (readFileWithCache
                         (sectionPath docsDir entry section) st)))
      as (o & st1 & Hscan & Hfirst).
    assert (Hlater :
      (forall text,
         servedText st (sectionPath docsDir entry section) = Some text ->
         JS.includes (toLowerCase text) q = false) ->
      exists o st1,
        scanSections docsDir q entry rest results
          (snd (readFileWithCache (sectionPath docsDir entry section) st))
        = ((results ++ optionToList o)%list, st1)
        /\ firstServed (fun text => JS.includes (toLowerCase text) q)
             (sectionPath docsDir entry)
             (fun section text =>
                contentResult entry section
                  (excerptAt text q (JS.indexOf (toLowerCase text) q)))
             (section :: rest) st o st1).
    { intros Hmiss. exists o, st1. split; [exact Hscan|].
      now apply firstServed_later. }
    destruct (readFileWithCache (sectionPath docsDir entry section) st)
      as [[content|] st0] eqn:Eread; cbn [fst snd] in *.
    + destruct (content =? EmptyString) eqn:Eempty.
      * apply Hlater. intros text Htext. rewrite <- Hserved in Htext.
        inversion Htext; subst text.
        apply String.eqb_eq in Eempty. subst content.
        rewrite toLowerCase_empty. now apply includes_in_empty.
      * destruct (JS.indexOf (toLowerCase content) q =? -1)%Z eqn:Eidx;
          cbn [negb].
        -- apply Hlater. intros text Htext. rewrite <- Hserved in Htext.
           inversion Htext; subst text. unfold JS.includes.
           now rewrite Eidx.
        -- exists (Some (contentResult entry section
                           (excerptAt content q
                              (JS.indexOf (toLowerCase content) q)))),
                  st0.
           split; [reflexivity|].
           pose proof (firstServed_here
                         (fun text => JS.includes (toLowerCase text) q)
                         (sectionPath docsDir entry)
                         (fun section text =>
                            contentResult entry section
                              (excerptAt text q
                                 (JS.indexOf (toLowerCase text) q)))
                         section rest st content) as Hhere.
           cbv beta in Hhere.
           replace st0
             with (snd (readFileWithCache
                          (sectionPath docsDir entry section) st)).
           ++ apply Hhere; [now symmetry|]. unfold JS.includes.
              now rewrite Eidx.
           ++ now rewrite Eread.
    + apply Hlater. intros text Htext. rewrite <- Hserved in Htext.
      discriminate.
Qed.

Lemma searchLoop_answered (docsDir q : string)
  (index : list ComponentEntry.t) (results : list SearchResult.t)
  (st : State) :
  exists answers st1,
    searchLoop docsDir q index results st = ((results ++ answers)%list, st1)
    /\ answered (metaMatch q) metadataResult
         (fun text => JS.includes (toLowerCase text) q)
         (sectionPath docsDir)
         (fun entry section text =>
            contentResult entry section
              (excerptAt text q (JS.indexOf (toLowerCase text) q)))
         index st answers st1.
Proof using toLowerCase_empty.
  revert results st. induction index as [|entry rest IH]; intros results st.
  - exists [], st. simpl. rewrite app_nil_r. split; [reflexivity|].
    constructor.
  - simpl searchLoop. destruct (metaMatch q entry) eqn:Emeta.
    + destruct (IH (results ++ [metadataResult entry])%list st)
        as (answers & st1 & Hloop & Hans).
      exists (metadataResult entry :: answers), st1.
      split; [rewrite Hloop; now rewrite <- app_assoc|].
      now apply answered_metadata.
    + destruct (scanSections_firstServed docsDir q entry
                  (ComponentEntry.sections entry) results st
                  (metaMatch_false_query q entry Emeta))
        as (o & st0 & Hscan & Hfirst).
      rewrite Hscan.
      destruct (IH (results ++ optionToList o)%list st0)
        as (answers & st1 & Hloop & Hans).
      exists (optionToList o ++ answers)%list, st1.
      split; [rewrite Hloop; now rewrite <- app_assoc|].
      now apply (answered_content _ _ _ _ _ entry rest st st0 st1).
Qed.

(** C4 (amended).  For every index, query and cache, with [q] the
    lower-cased query, the results are the answers of the entries, one
    at most per entry and in index order.  An entry with [q] in its
    lower-cased name, title or description answers with exactly one
    result, of match type [metadata], and [readFileWithCache] is not
    called for it: the state is left as it is.  Another entry answers
    with at most one result, of match type [content (section)], for the
    first of its sections, in declared order, whose text as
    [readFileWithCache] returns it (the cached text when the path is in
    the cache, the text of the file otherwise) holds [q]; its sections
    are read in declared order up to that one and no further.  On a
    cache that holds only texts read from the files, that section is the
    first, in declared order, whose file holds [q], and an entry with no
    such section answers nothing.  The payload lists these results, or
    is the no-results text when there is none. *)
Theorem C4_one_result_per_entry
  (index : list ComponentEntry.t) (docsDir query : string) (st : State) :
  let q := toLowerCase query in
  let holds := fun text : string => JS.includes (toLowerCase text) q in
  let isMetadata := fun e : ComponentEntry.t =>
    holds (ComponentEntry.name e)
    || holds (ComponentEntry.title e)
    || holds (ComponentEntry.description e) in
  let metadataOf := fun e : ComponentEntry.t =>
    SearchResult.mk (ComponentEntry.name e) (ComponentEntry.title e)
      (ComponentEntry.category e) "metadata" (ComponentEntry.description e) in
  let pathOf := fun (e : ComponentEntry.t) (section : string) =>
    path_join [docsDir; ComponentEntry.category e; ComponentEntry.name e;
               section ++ ".md"] in
  let excerptOf := fun text : string =>
    let idx := JS.indexOf (toLowerCase text) q in
    let start := Z.max 0 (idx - 80) in
    let end_ := Z.min (JS.length text) (idx + JS.length q + 80) in
    (if (0 <? start)%Z then "..." else EmptyString)
    ++ JS.flattenNewlines (JS.slice text start end_)
    ++ (if (end_ <? JS.length text)%Z then "..." else EmptyString) in
  let contentOf := fun (e : ComponentEntry.t) (section text : string) =>
    SearchResult.mk (ComponentEntry.name e) (ComponentEntry.title e)
      (ComponentEntry.category e) ("content (" ++ section ++ ")")
      (excerptOf text) in
  let fileText := fun filePath : string =>
    if existsSync filePath then Some (readFileSync filePath) else None in
  let fileHolds := fun (e : ComponentEntry.t) (section : string) =>
    match fileText (pathOf e section) with
    | Some text => holds text
    | None => false
    end in
  let answerOf := fun e : ComponentEntry.t =>
    if isMetadata e then Some (metadataOf e)
    else
      match find (fileHolds e) (ComponentEntry.sections e) with
      | Some section =>
          match fileText (pathOf e section) with
          | Some text => Some (contentOf e section text)
          | None => None
          end
      | None => None
      end in
  let lineOf := fun r : SearchResult.t =>
    "- **" ++ SearchResult.name r ++ "** (" ++ SearchResult.title r
    ++ ") [" ++ SearchResult.category r ++ "] — "
    ++ SearchResult.matchType r ++ JS.nl ++ "  " ++ SearchResult.excerpt r in
  let results := fst (searchResults index docsDir query st) in
  let st1 := snd (searchResults index docsDir query st) in
  answered isMetadata metadataOf holds pathOf contentOf index st results st1
  /\ (exists traces : list (option SearchResult.t * list string),
        Forall2
          (fun e t =>
             if isMetadata e
             then fst t = Some (metadataOf e) /\ snd t = []
             else
               (fst t = None
                /\ snd t = List.map (pathOf e) (ComponentEntry.sections e))
               \/ (exists pre section post excerpt,
                     ComponentEntry.sections e
                     = (pre ++ section :: post)%list
                     /\ snd t = List.map (pathOf e) (pre ++ [section])%list
                     /\ fst t
                        = Some (SearchResult.mk (ComponentEntry.name e)
                                  (ComponentEntry.title e)
                                  (ComponentEntry.category e)
                                  ("content (" ++ section ++ ")") excerpt)))
          index traces
        /\ results = flat_map (fun t => optionToList (fst t)) traces
        /\ reads st1 = (reads st ++ flat_map snd traces)%list)
  /\ (List.length results <= List.length index)%nat
  /\ (coherent (cache st) ->
      results = flat_map (fun e => optionToList (answerOf e)) index
      /\ coherent (cache st1))
  /\ fst (searchComponents index docsDir query st) =
     textResult
       match results with
       | [] =>
           "Aucun résultat pour " ++ JS.dq ++ query ++ JS.dq
           ++ ". Essayez un autre terme ou utilisez list_components"
           ++ " pour voir tous les composants."
       | _ :: _ =>
           JS.ofNat (List.length results) ++ " résultat(s) pour " ++ JS.dq
           ++ query ++ JS.dq ++ " :" ++ JS.nl ++ JS.nl
           ++ JS.join (JS.nl ++ JS.nl) (List.map lineOf results)
       end.
Proof using toLowerCase_empty.
  intros q holds isMetadata metadataOf pathOf excerptOf contentOf fileText
    fileHolds answerOf lineOf results st1.
  unfold results, st1, searchComponents, searchResults. fold q.
  destruct (searchLoop_spec docsDir q index [] st)
    as (traces & st2 & Hloop & Htr & Hreads & Hspec).
  destruct (searchLoop_answered docsDir q index [] st)
    as (answers & st3 & Hloop' & Hans).
  rewrite Hloop in Hloop'. cbn [app] in Hloop'.
  inversion Hloop' as [[Hanswers Hst]]. clear Hloop'.
  rewrite Hloop. cbn [fst snd app].
  split; [|split; [|split; [|split]]].
  - rewrite Hanswers, Hst. exact Hans.
  - exists traces. split; [|now split].
    eapply Forall2_impl; [|exact Htr]. intros e t H. exact H.
  - rewrite (Forall2_length Htr).
    apply (flat_map_optionToList_length fst).
  - intros Hco. destruct (Hspec Hco) as [Hfst Hco1]. split; [|exact Hco1].
    rewrite (flat_map_through_map fst optionToList), Hfst.
    rewrite <- flat_map_through_map. reflexivity.
  - destruct (flat_map _ traces); reflexivity.
Qed.

Lemma searchLoop_all_metadata (docsDir q : string)
  (index : list ComponentEntry.t) (results : list SearchResult.t)
  (st : State) :
  Forall (fun e => metaMatch q e = true) index ->
  searchLoop docsDir q index results st
  = ((results ++ List.map metadataResult index)%list, st).
Proof.
  intros Hall. revert results.
  induction Hall as [|entry rest He Hrest IH]; intros results; simpl.
  - now rewrite app_nil_r.
  - rewrite He, IH, <- app_assoc. reflexivity.
Qed.

(** C10.  On a non-empty index and any cache, the empty query returns
    one result for every entry, in index order and each of match type
    [metadata]; the payload lists them and is not the no-results text;
    the state is left as it was: [readFileWithCache] was not called and
    the cache was not touched. *)
Theorem C10_empty_query_matches_all
  (index : list ComponentEntry.t) (docsDir : string) (st : State) :
  index <> [] ->
  let results := List.map metadataResult index in
  searchResults index docsDir EmptyString st = (results, st)
  /\ List.length results = List.length index
  /\ Forall (fun r => SearchResult.matchType r = "metadata") results
  /\ searchComponents index docsDir EmptyString st
     = (textResult (resultsText EmptyString results), st)
  /\ resultsText EmptyString results <> noResultsText EmptyString.
Proof using toLowerCase_empty.
  intros Hne results.
  assert (Hres : searchResults index docsDir EmptyString st = (results, st)).
  { unfold searchResults. rewrite toLowerCase_empty.
    rewrite searchLoop_all_metadata; [reflexivity|].
    apply Forall_forall. intros e _. apply metaMatch_empty. }
  split; [exact Hres|]. split; [apply length_map|]. split.
  - unfold results. apply Forall_forall. intros r Hin.
    apply in_map_iff in Hin. destruct Hin as (e & <- & _). reflexivity.
  - split.
    + unfold searchComponents. rewrite Hres.
      assert (L : (Z.of_nat (List.length results) =? 0)%Z = false).
      { apply Z.eqb_neq. unfold results. rewrite length_map.
        destruct index; [contradiction | simpl; lia]. }
      now rewrite L.
    + unfold resultsText, noResultsText.
      destruct (JS.ofNat_head (List.length results)) as (d & r & -> & Hd).
      simpl. intros H. inversion H; subst d.
      simpl in Hd. intuition discriminate.
Qed.

(** ** Further properties of the engines *)

(** *** The content accessor *)

(** The cache of the state is in a state that the operations of
    [LRUCache] reach from a construction with capacity [N]. *)
Definition cacheReached (N : Z) (st : State) : Prop :=
  exists c0 ops,
    LRUCache.new string string N = Some c0
    /\ cache st = LRUCache.run string string string_dec ops c0.

Lemma cacheReached_wf (N : Z) (st : State) :
  cacheReached N st ->
  LRUCache.wf string string (cache st)
  /\ LRUCache.maxSize string string (cache st) = N.
Proof.
  intros (c0 & ops & Hnew & ->).
  now apply LRUCache.reachable_wf.
Qed.

Lemma run_snoc (ops : list (LRUCache.op string string))
  (o : LRUCache.op string string) (c : LRUCache.t string string) :
  LRUCache.run string string string_dec (ops ++ [o]) c
  = LRUCache.step string string string_dec
      (LRUCache.run string string string_dec ops c) o.
Proof. unfold LRUCache.run. now rewrite fold_left_app. Qed.

(** [readFileWithCache] acts on the cache through [get] and [set]
    only. *)
Lemma readFileWithCache_reached (N : Z) (filePath : string) (st : State) :
  cacheReached N st ->
  cacheReached N (snd (readFileWithCache filePath st)).
Proof.
  intros (c0 & ops & Hnew & Hc). unfold readFileWithCache, cacheGet, cacheSet.
  destruct (LRUCache.get string string string_dec filePath (cache st))
    as [[cached|] c1] eqn:Eget.
  - exists c0, (ops ++ [LRUCache.Get string string filePath])%list.
    split; [exact Hnew|]. rewrite run_snoc, <- Hc. simpl. now rewrite Eget.
  - assert (Hc1 : c1 = LRUCache.run string string string_dec
                         (ops ++ [LRUCache.Get string string filePath])%list
                         c0).
    { rewrite run_snoc, <- Hc. simpl. now rewrite Eget. }
    destruct (negb (existsSync filePath)).
    + exists c0, (ops ++ [LRUCache.Get string string filePath])%list.
      now split.
    + exists c0,
        ((ops ++ [LRUCache.Get string string filePath])
         ++ [LRUCache.Set_ string string filePath (readFileSync filePath)])
        %list.
      split; [exact Hnew|]. rewrite run_snoc, <- Hc1. reflexivity.
Qed.

(** A text that [readFileWithCache] returns is in the cache afterwards,
    so that reading the same path again returns the same text; a path
    that yields not-found leaves the cache as it was (absence is not
    cached) and is a path that does not exist. *)
Theorem read_result_is_cached (N : Z) (filePath : string) (st : State) :
  cacheReached N st ->
  let r := fst (readFileWithCache filePath st) in
  let st1 := snd (readFileWithCache filePath st) in
  (forall text,
     r = Some text ->
     fst (cacheGet filePath (cache st1)) = Some text
     /\ fst (readFileWithCache filePath st1) = Some text)
  /\ (r = None -> cache st1 = cache st /\ existsSync filePath = false).
Proof.
  intros Hreach r st1. destruct (cacheReached_wf N st Hreach) as [Hwf _].
  assert (Hhit : forall text st',
            fst (cacheGet filePath (cache st')) = Some text ->
            fst (readFileWithCache filePath st') = Some text).
  { intros text st' H. unfold readFileWithCache.
    destruct (cacheGet filePath (cache st')) as [[cached|] c1];
      simpl in *; congruence. }
  unfold r, st1, readFileWithCache, cacheGet, cacheSet in *.
  destruct (LRUCache.get string string string_dec filePath (cache st))
    as [[cached|] c1] eqn:Eget.
  - cbn [fst snd cache]. split; [|discriminate].
    intros text [= <-].
    assert (Hc : fst (LRUCache.get string string string_dec filePath c1)
                 = Some cached).
    { replace c1 with (snd (LRUCache.get string string string_dec filePath
                              (cache st))) by now rewrite Eget.
      apply LRUCache.get_hit_wf; [exact Hwf | now rewrite Eget]. }
    split; [exact Hc | now apply (Hhit cached (mkState c1 _))].
  - assert (Hc1 : c1 = cache st).
    { unfold LRUCache.get in Eget.
      destruct (LRUCache.Map_get string string string_dec
                  (LRUCache.map string string (cache st)) filePath);
        now inversion Eget. }
    subst c1. destruct (existsSync filePath); cbn [negb fst snd cache].
    + split; [|discriminate]. intros text [= <-].
      assert (Hc : fst (LRUCache.get string string string_dec filePath
                          (LRUCache.set string string string_dec filePath
                             (readFileSync filePath) (cache st)))
                   = Some (readFileSync filePath))
        by now apply LRUCache.set_get_wf.
      split; [exact Hc | now apply (Hhit _ (mkState _ _))].
    + split; [discriminate | now split].
Qed.

(** *** The document resolver *)

(** The document payload.  For the entry that the name selects and a
    section that the entry lists, on a cache that holds texts read from
    the files: when the file of the section exists, the payload is the
    title, the section and the text of the file, and the path of the
    section is the one path looked up. *)
Theorem doc_payload
  (index : list ComponentEntry.t) (docsDir name section content : string)
  (st : State) (entry : ComponentEntry.t) :
  findEntry index name = Some entry ->
  In section (ComponentEntry.sections entry) ->
  coherent (cache st) ->
  fileContent (sectionPath docsDir entry section) = Some content ->
  fst (getComponentDoc index docsDir name section st)
  = textResult ("# " ++ ComponentEntry.title entry ++ " — " ++ section
                ++ JS.nl ++ JS.nl ++ content)
  /\ reads (snd (getComponentDoc index docsDir name section st))
     = (reads st ++ [sectionPath docsDir entry section])%list
  /\ coherent (cache (snd (getComponentDoc index docsDir name section st))).
Proof.
  intros Hfind Hin Hco Hfile. unfold getComponentDoc. rewrite Hfind.
  apply includes_section in Hin. rewrite Hin. cbn [negb].
  pose proof (readFileWithCache_reads
                (sectionPath docsDir entry section) st) as Hr.
  destruct (readFileWithCache_coherent
              (sectionPath docsDir entry section) st Hco) as [Hres Hco1].
  destruct (readFileWithCache (sectionPath docsDir entry section) st)
    as [[text|] st1]; cbn [fst snd] in *.
  - rewrite Hfile in Hres. inversion Hres; subst text. now repeat split.
  - rewrite Hfile in Hres. discriminate.
Qed.

(** Whatever the index, the name and the cache, [getComponentDoc] looks
    up one path at most, and none unless the name selects an entry that
    lists the section: the path of that section of that entry. *)
Theorem doc_reads_at_most_one_path
  (index : list ComponentEntry.t) (docsDir name section : string)
  (st : State) :
  let st1 := snd (getComponentDoc index docsDir name section st) in
  (st1 = st)
  \/ (exists entry,
        findEntry index name = Some entry
        /\ In section (ComponentEntry.sections entry)
        /\ reads st1 = (reads st ++ [sectionPath docsDir entry section])%list).
Proof.
  intros st1. unfold st1, getComponentDoc.
  destruct (findEntry index name) as [entry|]; [|now left].
  destruct (existsb (String.eqb section) (ComponentEntry.sections entry))
    eqn:E; cbn [negb]; [|now left].
  right. exists entry. apply includes_section in E.
  split; [reflexivity|]. split; [exact E|].
  pose proof (readFileWithCache_reads
                (sectionPath docsDir entry section) st) as Hr.
  now destruct (readFileWithCache (sectionPath docsDir entry section) st)
    as [[text|] st2].
Qed.

(** *** The component search, continued *)

Lemma scanSections_reached (N : Z) (docsDir q : string)
  (entry : ComponentEntry.t) (sections : list string)
  (results : list SearchResult.t) (st : State) :
  cacheReached N st ->
  cacheReached N (snd (scanSections docsDir q entry sections results st)).
Proof.
  revert st. induction sections as [|section rest IH]; intros st Hst;
    [exact Hst|].
  simpl scanSections.
  pose proof (readFileWithCache_reached N
                (sectionPath docsDir entry section) st Hst) as H1.
  destruct (readFileWithCache (sectionPath docsDir entry section) st)
    as [[content|] st1]; cbn [snd] in H1; [|now apply IH].
  destruct (content =? EmptyString); [now apply IH|].
  destruct (negb (JS.indexOf (toLowerCase content) q =? -1)%Z);
    [exact H1 | now apply IH].
Qed.

Lemma searchLoop_reached (N : Z) (docsDir q : string)
  (index : list ComponentEntry.t) (results : list SearchResult.t)
  (st : State) :
  cacheReached N st ->
  cacheReached N (snd (searchLoop docsDir q index results st)).
Proof.
  revert results st. induction index as [|entry rest IH];
    intros results st Hst; [exact Hst|].
  simpl searchLoop. destruct (metaMatch q entry); [now apply IH|].
  pose proof (scanSections_reached N docsDir q entry
                (ComponentEntry.sections entry) results st Hst) as H1.
  destruct (scanSections docsDir q entry (ComponentEntry.sections entry)
              results st) as [results1 st1].
  now apply IH.
Qed.

Lemma length_append (a b : string) :
  String.length (a ++ b) = (String.length a + String.length b)%nat.
Proof. induction a as [|c a IH]; simpl; [reflexivity | now rewrite IH]. Qed.

Lemma substring_length (n m : nat) (s : string) :
  (String.length (String.substring n m s) <= m)%nat.
Proof.
  revert n m. induction s as [|c s IH]; intros [|n] [|m]; simpl;
    try lia; try apply IH.
  specialize (IH 0%nat m). lia.
Qed.

Lemma flattenNewlines_length (s : string) :
  String.length (JS.flattenNewlines s) = String.length s.
Proof. induction s as [|c s IH]; simpl; [reflexivity | now rewrite IH]. Qed.

Lemma chars_append (a b : string) :
  list_ascii_of_string (a ++ b)
  = (list_ascii_of_string a ++ list_ascii_of_string b)%list.
Proof. induction a as [|c a IH]; simpl; [reflexivity | now rewrite IH]. Qed.

Lemma flattenNewlines_clean (s : string) :
  ~ In JS.newline (list_ascii_of_string (JS.flattenNewlines s)).
Proof.
  induction s as [|c s IH]; simpl; [tauto|].
  intros [E|I]; [|now apply IH].
  destruct (Ascii.eqb c JS.newline) eqn:Ec.
  - discriminate.
  - apply Ascii.eqb_neq in Ec. congruence.
Qed.

(** The excerpt is a window on one line: whatever the text, the query
    and the position, it has no line feed and at most 80 code units on
    each side of the length of the query, plus the two marks of three. *)
Theorem excerpt_is_bounded (content q : string) (idx : Z) :
  (String.length (excerptAt content q idx) <= String.length q + 166)%nat
  /\ ~ In JS.newline (list_ascii_of_string (excerptAt content q idx)).
Proof.
  unfold excerptAt. cbv zeta.
  set (start := Z.max 0 (idx - 80)).
  set (end_ := Z.min (JS.length content) (idx + JS.length q + 80)).
  split.
  - rewrite !length_append, flattenNewlines_length.
    pose proof (substring_length (Z.to_nat start) (Z.to_nat (end_ - start))
                  content) as Hs.
    unfold JS.slice.
    assert (Hw : (Z.to_nat (end_ - start) <= String.length q + 160)%nat).
    { unfold start, end_, JS.length. lia. }
    destruct (0 <? start)%Z; destruct (end_ <? JS.length content)%Z;
      simpl String.length; lia.
  - rewrite !chars_append. intros I.
    apply in_app_or in I. destruct I as [I|I].
    + destruct (0 <? start)%Z; simpl in I; decompose [or] I;
        try discriminate; contradiction.
    + apply in_app_or in I. destruct I as [I|I].
      * now apply flattenNewlines_clean in I.
      * destruct (end_ <? JS.length content)%Z; simpl in I;
          decompose [or] I; try discriminate; contradiction.
Qed.

(** *** The icon search, continued *)

Lemma iconScore_range (q : string) (icon : IconEntry.t) :
  (0 <= iconScore q icon <= 3)%Z.
Proof.
  unfold iconScore.
  repeat match goal with |- context [if ?c then _ else _] =>
           destruct c end; lia.
Qed.

Lemma In_firstn {A : Type} (n : nat) (l : list A) (x : A) :
  In x (firstn n l) -> In x l.
Proof.
  intros H. rewrite <- (firstn_skipn n l). apply in_or_app. now left.
Qed.

Lemma NoDup_map_graph {A B : Type} (f : A -> B) (l : list A) :
  NoDup l -> NoDup (List.map (fun x => (x, f x)) l).
Proof.
  induction 1 as [|x l Hx Hl IH]; simpl; constructor; [|exact IH].
  intros I. apply in_map_iff in I. destruct I as (y & E & Iy).
  inversion E; subst. contradiction.
Qed.

Lemma limitedIcons_In (icons : list IconEntry.t) (query : string)
  (category : option string) (p : IconEntry.t * Z) :
  In p (limitedIcons icons query category) ->
  In (fst p) (iconCandidates icons category)
  /\ snd p = iconScore (toLowerCase query) (fst p)
  /\ (0 < snd p)%Z.
Proof.
  unfold limitedIcons, JS.arraySlice0. intros Hin.
  apply In_firstn in Hin.
  apply (Permutation_in _ (JS.sort_Permutation _ compareScored _)) in Hin.
  rewrite scoreLoop_filter in Hin. simpl in Hin.
  apply in_map_iff in Hin. destruct Hin as (i & <- & Hi).
  apply filter_In in Hi. destruct Hi as [Hi Hs].
  apply Z.ltb_lt in Hs. now repeat split.
Qed.

(** Every icon of the answer is an icon of the list, matches the query
    (its score is positive) and, when a category is given, has exactly
    that category; an icon list without repetition gives an answer
    without repetition. *)
Theorem icons_answer_is_sound
  (icons : list IconEntry.t) (query : string) (category : option string) :
  let limited := limitedIcons icons query category in
  (forall p, In p limited ->
     In (fst p) icons
     /\ (0 < iconScore (toLowerCase query) (fst p))%Z
     /\ (forall cat, category = Some cat -> cat <> EmptyString ->
                     IconEntry.category (fst p) = cat))
  /\ (NoDup icons -> NoDup limited).
Proof.
  intros limited. split.
  - intros p Hin. apply limitedIcons_In in Hin.
    destruct Hin as (Hc & Hs & Hpos). rewrite <- Hs.
    split; [|split; [exact Hpos|]].
    + unfold iconCandidates in Hc. destruct category as [cat|]; [|exact Hc].
      destruct (truthy (Some cat)); [|exact Hc].
      now apply filter_In in Hc.
    + intros cat -> Hne. unfold iconCandidates, truthy in Hc.
      apply String.eqb_neq in Hne. rewrite Hne in Hc. cbn [negb] in Hc.
      apply filter_In in Hc. destruct Hc as [_ Hc].
      now apply String.eqb_eq in Hc.
  - intros Hnd. unfold limited, limitedIcons, JS.arraySlice0.
    rewrite scoreLoop_filter. simpl app.
    assert (Hcand : NoDup (iconCandidates icons category)).
    { unfold iconCandidates. destruct category as [cat|]; [|exact Hnd].
      destruct (truthy (Some cat)); [|exact Hnd]. now apply NoDup_filter. }
    set (scored := List.map _ _).
    assert (Hscored : NoDup scored).
    { unfold scored. apply NoDup_map_graph. now apply NoDup_filter. }
    assert (Hsorted : NoDup (JS.sort compareScored scored)).
    { apply (Permutation_NoDup (l := scored)); [|exact Hscored].
      symmetry. apply JS.sort_Permutation. }
    rewrite <- (firstn_skipn 20 (JS.sort compareScored scored)) in Hsorted.
    now apply NoDup_app_remove_r in Hsorted.
Qed.

(** The no-results payload of the icon search is returned exactly when
    no candidate matches the query; it names the query, and says that
    the category filter is active or, without one, lists the known
    categories. *)
Theorem icons_no_result
  (icons : list IconEntry.t) (query : string) (category : option string) :
  (limitedIcons icons query category = []
   <-> Forall (fun i => iconScore (toLowerCase query) i = 0%Z)
              (iconCandidates icons category))
  /\ (limitedIcons icons query category = [] ->
      searchIcons icons query category =
      textResult
        ("Aucune icône trouvée pour " ++ JS.dq ++ query ++ JS.dq ++ ". "
         ++ match category with
            | Some cat =>
                if cat =? EmptyString
                then "Catégories disponibles : "
                     ++ JS.join ", " ICON_CATEGORIES
                else "Catégorie " ++ JS.dq ++ cat ++ JS.dq ++ " filtrée."
            | None =>
                "Catégories disponibles : " ++ JS.join ", " ICON_CATEGORIES
            end))
  /\ (limitedIcons icons query category <> [] ->
      exists text,
        searchIcons icons query category
        = textResult
            (JS.ofNat (List.length (limitedIcons icons query category))
             ++ " icône(s) trouvée(s) pour " ++ JS.dq ++ query ++ JS.dq
             ++ text)).
Proof.
  split; [|split].
  - unfold limitedIcons, JS.arraySlice0. rewrite scoreLoop_filter.
    simpl app.
    set (cands := iconCandidates icons category).
    set (q := toLowerCase query).
    set (scored := List.map _ _).
    assert (Hnil : firstn 20 (JS.sort compareScored scored) = []
                   <-> scored = []).
    { pose proof (JS.sort_Permutation _ compareScored scored) as Hp.
      split.
      - intros H. destruct (JS.sort compareScored scored) as [|x l] eqn:E.
        + now apply Permutation_nil in Hp.
        + discriminate.
      - intros ->. reflexivity. }
    rewrite Hnil. unfold scored. clear Hnil scored.
    induction cands as [|i cands IH]; simpl.
    + split; [constructor | reflexivity].
    + pose proof (iconScore_range q i) as Hr.
      destruct (0 <? iconScore q i)%Z eqn:E; simpl.
      * apply Z.ltb_lt in E. split; [discriminate|].
        inversion 1; subst. lia.
      * apply Z.ltb_ge in E. rewrite IH. split.
        -- intros H. constructor; [lia | exact H].
        -- now inversion 1.
  - intros Hnil. unfold searchIcons. rewrite Hnil. simpl List.length.
    cbn [Z.of_nat Z.eqb]. unfold truthy.
    destruct category as [cat|]; [|reflexivity].
    now destruct (cat =? EmptyString).
  - intros Hne. unfold searchIcons.
    destruct (limitedIcons icons query category) as [|p l] eqn:E;
      [contradiction|].
    assert (L : (Z.of_nat (List.length (p :: l)) =? 0)%Z = false)
      by (apply Z.eqb_neq; simpl; lia).
    rewrite L. eexists. reflexivity.
Qed.

Lemma scanSections_coherent (docsDir q : string) (entry : ComponentEntry.t)
  (sections : list string) (results : list SearchResult.t) (st : State) :
  coherent (cache st) ->
  coherent (cache (snd (scanSections docsDir q entry sections results st))).
Proof.
  revert st. induction sections as [|section rest IH]; intros st Hst;
    [exact Hst|].
  simpl scanSections.
  destruct (readFileWithCache_coherent
              (sectionPath docsDir entry section) st Hst) as [_ H1].
  destruct (readFileWithCache (sectionPath docsDir entry section) st)
    as [[content|] st1]; cbn [snd] in H1; [|now apply IH].
  destruct (content =? EmptyString); [now apply IH|].
  destruct (negb (JS.indexOf (toLowerCase content) q =? -1)%Z);
    [exact H1 | now apply IH].
Qed.

Lemma searchLoop_coherent (docsDir q : string)
  (index : list ComponentEntry.t) (results : list SearchResult.t)
  (st : State) :
  coherent (cache st) ->
  coherent (cache (snd (searchLoop docsDir q index results st))).
Proof.
  revert results st. induction index as [|entry rest IH];
    intros results st Hst; [exact Hst|].
  simpl searchLoop. destruct (metaMatch q entry); [now apply IH|].
  pose proof (scanSections_coherent docsDir q entry
                (ComponentEntry.sections entry) results st Hst) as H1.
  destruct (scanSections docsDir q entry (ComponentEntry.sections entry)
              results st) as [results1 st1].
  now apply IH.
Qed.

(** *** The colour tokens, continued *)

Lemma distinct_spec (l seen : list string) :
  NoDup seen ->
  NoDup (distinct l seen)
  /\ (forall x, In x (distinct l seen) <-> In x seen \/ In x l).
Proof.
  revert seen. induction l as [|y l IH]; intros seen Hnd; simpl.
  - split; [exact Hnd|]. intros x. split; [now left | now intros [H|[]]].
  - destruct (existsb (String.eqb y) seen) eqn:E.
    + apply existsb_exists in E. destruct E as (z & Hz & Ez).
      apply String.eqb_eq in Ez. subst z.
      destruct (IH seen Hnd) as [H1 H2]. split; [exact H1|].
      intros x. rewrite H2. split.
      * intros [H|H]; [now left | right; now right].
      * intros [H|[H|H]]; [now left | subst; now left | now right].
    + assert (Hy : ~ In y seen).
      { intros I. assert (X : existsb (String.eqb y) seen = true).
        { apply existsb_exists. exists y. split; [exact I|].
          apply String.eqb_refl. }
        congruence. }
      assert (Hnd' : NoDup (seen ++ [y])%list).
      { apply NoDup_app;
          [exact Hnd | constructor; [intros [] | constructor] |].
        intros a Ha [<-|[]]. contradiction. }
      destruct (IH _ Hnd') as [H1 H2]. split; [exact H1|].
      intros x. rewrite H2, in_app_iff. simpl. split.
      * intros [[H|[H|[]]]|H]; [now left | right; now left | right; now right].
      * intros [H|[H|H]]; [left; now left | left; right; now left | now right].
Qed.

(** Without a filter (each one absent or empty) the answer is the
    summary, never the no-token text: it lists the contexts of the
    decision tokens, each one once, the families with their categories
    and the illustrative names. *)
Theorem colors_summary
  (colors : ColorsIndex.t) (context usage family : option string) :
  truthy context = false ->
  truthy usage = false ->
  truthy family = false ->
  exists contexts : list string,
    NoDup contexts
    /\ (forall c, In c contexts
                  <-> exists t, In t (ColorsIndex.decisionTokens colors)
                                /\ ColorDecisionToken.context t = c)
    /\ getColorTokens colors context usage family =
       textResult
         ("Tokens de couleur DSFR disponibles :" ++ JS.nl ++ JS.nl
          ++ "**Contextes :** " ++ JS.join ", " contexts ++ JS.nl
          ++ "**Familles :** "
          ++ JS.join ", "
               (List.map (fun f => ColorFamily.name f ++ " ("
                                   ++ ColorFamily.category f ++ ")")
                  (ColorsIndex.families colors))
          ++ JS.nl ++ "**Couleurs illustratives :** "
          ++ JS.join ", " (ColorsIndex.illustrativeNames colors)
          ++ JS.nl ++ JS.nl
          ++ "Utilisez les paramètres context, usage ou family pour filtrer.").
Proof.
  intros Hc Hu Hf.
  exists (distinct (List.map ColorDecisionToken.context
                      (ColorsIndex.decisionTokens colors)) []).
  destruct (distinct_spec
              (List.map ColorDecisionToken.context
                 (ColorsIndex.decisionTokens colors)) [] (NoDup_nil _))
    as [Hnd Hin].
  split; [exact Hnd|]. split.
  - intros c. rewrite Hin, in_map_iff. split.
    + intros [[]|(t & E & I)]. now exists t.
    + intros (t & I & E). right. now exists t.
  - unfold getColorTokens. now rewrite Hc, Hu, Hf.
Qed.

(** The test that an optional filter puts on a token: none when the
    filter is absent or empty. *)
Definition optionalTest (o : option string) (p : string -> bool) : bool :=
  match o with
  | Some s => if s =? EmptyString then true else p s
  | None => true
  end.

Lemma filter_filter {A : Type} (f g : A -> bool) (l : list A) :
  filter g (filter f l) = filter (fun x => f x && g x) l.
Proof.
  induction l as [|x l IH]; simpl; [reflexivity|].
  destruct (f x); simpl; [|exact IH].
  destruct (g x); now rewrite IH.
Qed.

Lemma whenGiven_filter {A : Type} (o : option string)
  (p : string -> A -> bool) (l : list A) :
  whenGiven o (fun s l => filter (p s) l) l
  = filter (fun x => optionalTest o (fun s => p s x)) l.
Proof.
  unfold whenGiven, optionalTest, truthy. destruct o as [s|].
  - destruct (s =? EmptyString); simpl; [|reflexivity].
    symmetry. apply forallb_filter_id. now apply forallb_forall.
  - symmetry. apply forallb_filter_id. now apply forallb_forall.
Qed.

(** The three filters on the decision tokens combine as a conjunction:
    the surviving tokens are those of the index, in the order of the
    index, that pass every given filter (exact context; usage within
    the lower-cased identifier or description; family within the
    lower-cased identifier). *)
Theorem color_filters_combine
  (colors : ColorsIndex.t) (context usage family : option string) :
  filterTokens colors context usage family =
  filter
    (fun t =>
       optionalTest context (fun c => ColorDecisionToken.context t =? c)
       && optionalTest usage
            (fun u =>
               JS.includes (toLowerCase (ColorDecisionToken.token t))
                           (toLowerCase u)
               || JS.includes (toLowerCase (ColorDecisionToken.description t))
                              (toLowerCase u))
       && optionalTest family
            (fun f =>
               JS.includes (toLowerCase (ColorDecisionToken.token t))
                           (toLowerCase f)))
    (ColorsIndex.decisionTokens colors).
Proof.
  unfold filterTokens.
  rewrite (whenGiven_filter context
             (fun c t => ColorDecisionToken.context t =? c)).
  rewrite (whenGiven_filter usage
             (fun u t =>
                JS.includes (toLowerCase (ColorDecisionToken.token t))
                            (toLowerCase u)
                || JS.includes
                     (toLowerCase (ColorDecisionToken.description t))
                     (toLowerCase u))).
  rewrite (whenGiven_filter family
             (fun f t =>
                JS.includes (toLowerCase (ColorDecisionToken.token t))
                            (toLowerCase f))).
  rewrite !filter_filter. apply filter_ext. intros t.
  now rewrite andb_assoc.
Qed.

End Engines.

(** A path that is in the cache is served from it: the answer and the
    new state are the same on every file system, the file is neither
    tested nor read. *)
Theorem cache_hit_skips_file_system
  (existsSync existsSync' : string -> bool)
  (readFileSync readFileSync' : string -> string)
  (filePath text : string) (st : State) :
  fst (cacheGet filePath (cache st)) = Some text ->
  fst (readFileWithCache existsSync readFileSync filePath st) = Some text
  /\ readFileWithCache existsSync readFileSync filePath st
     = readFileWithCache existsSync' readFileSync' filePath st.
Proof.
  intros Hhit. unfold readFileWithCache.
  destruct (cacheGet filePath (cache st)) as [[cached|] c1];
    simpl in Hhit; [|discriminate].
  now inversion Hhit.
Qed.

End Core.

(** ** The handlers of the first server, which read the files directly

    Before the engines were moved to [src/core.ts] and given a cache,
    [src/index.ts] held them inline, with [existsSync] and
    [readFileSync] called on every request. *)

Module Direct.

Local Open Scope string_scope.

Section Handlers.

Variable toLowerCase : string -> string.
Variable path_join : list string -> string.
Variable existsSync : string -> bool.
Variable readFileSync : string -> string.

(** The constants [index] and [DOCS_DIR] of the module. *)
Variable index : list ComponentEntry.t.
Variable DOCS_DIR : string.

(** The handler of [get_component_doc]. *)
Definition getComponentDoc (name section : string) : ToolTextResult.t :=
  match Core.findEntry toLowerCase index name with
  | None =>
      Core.textResult
        (Core.notFoundText name (Core.suggestionsFor toLowerCase index name))
  | Some entry =>
      let filePath := Core.sectionPath path_join DOCS_DIR entry section in
      if negb (existsSync filePath)
      then Core.textResult (Core.unavailableText entry section)
      else
        let content := readFileSync filePath in
        Core.textResult (Core.docText entry section content)
  end.

(** The handler of [search_components]: the inner loop, the outer loop
    and the payload. *)
Fixpoint scanSections (q : string) (entry : ComponentEntry.t)
  (sections : list string) (results : list SearchResult.t)
  : list SearchResult.t :=
  match sections with
  | [] => results
  | section :: rest =>
      let filePath := Core.sectionPath path_join DOCS_DIR entry section in
      if negb (existsSync filePath) then scanSections q entry rest results
      else
        let content := readFileSync filePath in
        let lowerContent := toLowerCase content in
        let idx := JS.indexOf lowerContent q in
        if negb (idx =? -1)%Z then
          (results
           ++ [Core.contentResult entry section
                 (Core.excerptAt content q idx)])%list
        else scanSections q entry rest results
  end.

Fixpoint searchLoop (q : string) (entries : list ComponentEntry.t)
  (results : list SearchResult.t) : list SearchResult.t :=
  match entries with
  | [] => results
  | entry :: rest =>
      if Core.metaMatch toLowerCase q entry
      then searchLoop q rest (results ++ [Core.metadataResult entry])%list
      else
        searchLoop q rest
          (scanSections q entry (ComponentEntry.sections entry) results)
  end.

Definition searchComponents (query : string) : ToolTextResult.t :=
  let q := toLowerCase query in
  let results := searchLoop q index [] in
  if (Z.of_nat (List.length results) =? 0)%Z
  then Core.textResult (Core.noResultsText query)
  else Core.textResult (Core.resultsText query results).

Hypothesis toLowerCase_empty : toLowerCase EmptyString = EmptyString.

Lemma scanSections_contentSpec (q : string) (entry : ComponentEntry.t)
  (sections : list string) (results : list SearchResult.t) :
  scanSections q entry sections results
  = (results
     ++ Core.optionToList
          (Core.contentSpec toLowerCase path_join existsSync readFileSync
             DOCS_DIR q entry sections))%list.
Proof.
  induction sections as [|section rest IH]; simpl.
  - now rewrite app_nil_r.
  - unfold Core.contentSpec. simpl find.
    unfold Core.sectionHolds at 1. unfold Core.fileContent at 1.
    destruct (existsSync (Core.sectionPath path_join DOCS_DIR entry section))
      eqn:Ex; cbn [negb]; [|exact IH].
    unfold JS.includes.
    destruct (JS.indexOf
                (toLowerCase
                   (readFileSync
                      (Core.sectionPath path_join DOCS_DIR entry section)))
                q =? -1)%Z; cbn [negb]; [exact IH|].
    unfold Core.fileContent. now rewrite Ex.
Qed.

Lemma searchLoop_entrySpec (q : string) (entries : list ComponentEntry.t)
  (results : list SearchResult.t) :
  searchLoop q entries results
  = (results
     ++ flat_map
          (fun e =>
             Core.optionToList
               (Core.entrySpec toLowerCase path_join existsSync readFileSync
                  DOCS_DIR q e))
          entries)%list.
Proof.
  revert results. induction entries as [|entry rest IH]; intros results;
    simpl.
  - now rewrite app_nil_r.
  - unfold Core.entrySpec at 1.
    destruct (Core.metaMatch toLowerCase q entry).
    + rewrite IH, <- app_assoc. reflexivity.
    + rewrite IH, scanSections_contentSpec, <- app_assoc. reflexivity.
Qed.

(** The cache does not change the answers of the search: on a cache
    that holds texts read from the files, [searchComponents] of
    [src/core.ts] returns the payload that the handler reading every
    file directly returns. *)
Theorem cached_search_agrees (query : string) (st : Core.State) :
  Core.coherent existsSync readFileSync (Core.cache st) ->
  fst (Core.searchComponents toLowerCase path_join existsSync readFileSync
         index DOCS_DIR query st)
  = searchComponents query.
Proof using toLowerCase_empty.
  intros Hco. unfold Core.searchComponents, Core.searchResults,
    searchComponents.
  destruct (Core.searchLoop_spec toLowerCase path_join existsSync
              readFileSync toLowerCase_empty DOCS_DIR (toLowerCase query)
              index [] st)
    as (traces & st1 & Hloop & _ & _ & Hspec).
  destruct (Hspec Hco) as [Hfst _].
  rewrite Hloop, searchLoop_entrySpec. cbn [app].
  rewrite (Core.flat_map_through_map fst Core.optionToList), Hfst.
  rewrite <- Core.flat_map_through_map.
  now destruct (Z.of_nat _ =? 0)%Z.
Qed.

(** The cache does not change the answers of the resolver either, as
    long as the section asked for is one that the selected entry lists;
    for a section that the entry does not list and whose file exists all
    the same, the handler reading directly returns the document, where
    [getComponentDoc] of [src/core.ts] answers that the section is not
    available. *)
Theorem cached_doc_agrees (name section : string) (st : Core.State) :
  Core.coherent existsSync readFileSync (Core.cache st) ->
  ((forall entry,
      Core.findEntry toLowerCase index name = Some entry ->
      In section (ComponentEntry.sections entry)) ->
   fst (Core.getComponentDoc toLowerCase path_join existsSync readFileSync
          index DOCS_DIR name section st)
   = getComponentDoc name section)
  /\
  (forall entry,
     Core.findEntry toLowerCase index name = Some entry ->
     ~ In section (ComponentEntry.sections entry) ->
     existsSync (Core.sectionPath path_join DOCS_DIR entry section) = true ->
     fst (Core.getComponentDoc toLowerCase path_join existsSync readFileSync
            index DOCS_DIR name section st)
     = Core.textResult (Core.unavailableText entry section)
     /\ getComponentDoc name section
        = Core.textResult
            (Core.docText entry section
               (readFileSync
                  (Core.sectionPath path_join DOCS_DIR entry section)))).
Proof.
  intros Hco. split.
  - intros Hlisted. unfold Core.getComponentDoc, getComponentDoc.
    destruct (Core.findEntry toLowerCase index name) as [entry|];
      [|reflexivity].
    specialize (Hlisted entry eq_refl).
    apply Core.includes_section in Hlisted. rewrite Hlisted. cbn [negb].
    destruct (Core.readFileWithCache_coherent existsSync readFileSync
                (Core.sectionPath path_join DOCS_DIR entry section) st Hco)
      as [Hres _].
    unfold Core.fileContent in Hres.
    destruct (Core.readFileWithCache existsSync readFileSync
                (Core.sectionPath path_join DOCS_DIR entry section) st)
      as [[content|] st1]; cbn [fst] in *;
      destruct (existsSync
                  (Core.sectionPath path_join DOCS_DIR entry section));
      cbn [negb]; congruence.
  - intros entry Hfind Hnot Hex.
    unfold Core.getComponentDoc, getComponentDoc. rewrite Hfind, Hex.
    cbn [negb].
    destruct (existsb (String.eqb section) (ComponentEntry.sections entry))
      eqn:E; [|now split].
    apply Core.includes_section in E. contradiction.
Qed.

End Handlers.

End Direct.

(** ** The server ([src/index.ts]) *)

Module Server.

Local Open Scope string_scope.

Section Tools.

Variable toLowerCase : string -> string.
Variable localeCompare : string -> string -> Z.
Variable path_join : list string -> string.
Variable existsSync : string -> bool.
Variable readFileSync : string -> string.

(** [JSON.stringify(list, null, 2)]. *)
Variable JSON_stringify : list ComponentEntry.t -> string.

(** What the module loads when it starts: [loadIndex(DOCS_DIR)],
    [loadIcons(DOCS_DIR)] and [loadColors(DOCS_DIR)]. *)
Variable DOCS_DIR : string.
Variable index : list ComponentEntry.t.
Variable icons : list IconEntry.t.
Variable colors : ColorsIndex.t.

(** [listComponents] of [src/core.ts]. *)
Definition listComponents (index : list ComponentEntry.t)
  : ToolTextResult.t :=
  let list :=
    List.map
      (fun e =>
         ComponentEntry.mk (ComponentEntry.name e) (ComponentEntry.title e)
           (ComponentEntry.description e) (ComponentEntry.category e)
           (ComponentEntry.sections e))
      index in
  Core.textResult (JSON_stringify list).

(** [const cache = new LRUCache<string, string>(50)]. *)
Definition initialState : Core.State :=
  Core.mkState (LRUCache.mk string string [] 50) [].

(** A validated call of one of the five tools; an optional argument
    that the caller left out is [None]. *)
Inductive Request : Type :=
| list_components
| get_component_doc (name : string) (section : option string)
| search_components (query : string)
| search_icons (query : string) (category : option string)
| get_color_tokens (context usage family : option string).

(** The handlers registered with [server.tool]; the section of
    [get_component_doc] defaults to [code]. *)
Definition handle (r : Request) (st : Core.State)
  : ToolTextResult.t * Core.State :=
  match r with
  | list_components => (listComponents index, st)
  | get_component_doc name section =>
      let section := match section with Some s => s | None => "code" end in
      Core.getComponentDoc toLowerCase path_join existsSync readFileSync
        index DOCS_DIR name section st
  | search_components query =>
      Core.searchComponents toLowerCase path_join existsSync readFileSync
        index DOCS_DIR query st
  | search_icons query category =>
      (Core.searchIcons toLowerCase localeCompare icons query category, st)
  | get_color_tokens context usage family =>
      (Core.getColorTokens toLowerCase colors context usage family, st)
  end.

(** The state after a sequence of requests, served one at a time. *)
Definition serve (requests : list Request) (st : Core.State) : Core.State :=
  fold_left (fun st r => snd (handle r st)) requests st.

Definition goodState (st : Core.State) : Prop :=
  Core.cacheReached 50 st
  /\ Core.coherent existsSync readFileSync (Core.cache st).

Lemma initialState_good : goodState initialState.
Proof.
  split.
  - exists (LRUCache.mk string string [] 50), []. now split.
  - constructor.
Qed.

Lemma handle_good (r : Request) (st : Core.State) :
  goodState st -> goodState (snd (handle r st)).
Proof.
  intros [Hreach Hco]. destruct r as [|name section|query| |]; cbn [handle snd];
    try (now split).
  - unfold Core.getComponentDoc.
    destruct (Core.findEntry toLowerCase index name) as [entry|];
      [|now split].
    destruct (negb (existsb _ (ComponentEntry.sections entry)));
      [now split|].
    match goal with
    | |- context [Core.readFileWithCache _ _ ?p st] =>
        pose proof (Core.readFileWithCache_reached existsSync readFileSync
                      50 p st Hreach) as H1;
        destruct (Core.readFileWithCache_coherent existsSync readFileSync
                    p st Hco) as [_ H2];
        destruct (Core.readFileWithCache existsSync readFileSync p st)
          as [[content|] st1]
    end; now split.
  - unfold Core.searchComponents, Core.searchResults.
    pose proof (Core.searchLoop_reached toLowerCase path_join existsSync
                  readFileSync 50 DOCS_DIR (toLowerCase query) index [] st
                  Hreach) as H1.
    pose proof (Core.searchLoop_coherent toLowerCase path_join existsSync
                  readFileSync DOCS_DIR (toLowerCase query) index [] st Hco)
      as H2.
    destruct (Core.searchLoop toLowerCase path_join existsSync readFileSync
                DOCS_DIR (toLowerCase query) index [] st) as [results st1].
    destruct (Z.of_nat (List.length results) =? 0)%Z; now split.
Qed.

Lemma serve_good (requests : list Request) (st : Core.State) :
  goodState st -> goodState (serve requests st).
Proof.
  revert st. induction requests as [|r requests IH]; intros st Hst;
    [exact Hst|].
  simpl. apply IH. now apply handle_good.
Qed.

(** The server keeps its cache bounded and true to the files: after
    every sequence of requests the cache holds at most 50 texts, under
    pairwise distinct paths, and every text it holds is the text of the
    file at its path. *)
Theorem server_cache_invariant (requests : list Request) :
  let c := Core.cache (serve requests initialState) in
  (0 <= LRUCache.size string string c <= 50)%Z
  /\ LRUCache.maxSize string string c = 50%Z
  /\ NoDup (LRUCache.keys string string (LRUCache.map string string c))
  /\ (forall filePath text,
        fst (Core.cacheGet filePath c) = Some text ->
        existsSync filePath = true /\ readFileSync filePath = text).
Proof.
  intros c. destruct (serve_good requests initialState initialState_good)
    as [Hreach Hco].
  destruct (Core.cacheReached_wf 50 _ Hreach) as [(Hnd & Hsz & _) Hmax].
  fold c in Hnd, Hsz, Hmax, Hco.
  split; [|split; [exact Hmax | split; [exact Hnd|]]].
  - unfold LRUCache.size, LRUCache.Map_size in *. lia.
  - intros filePath text Hget. unfold Core.cacheGet in Hget.
    rewrite LRUCache.get_fst in Hget.
    apply LRUCache.Map_get_Some_In in Hget.
    unfold Core.coherent in Hco. rewrite Forall_forall in Hco.
    specialize (Hco _ Hget). unfold Core.fileContent in Hco. simpl in Hco.
    destruct (existsSync filePath); [|discriminate].
    split; [reflexivity | congruence].
Qed.

Hypothesis toLowerCase_empty : toLowerCase EmptyString = EmptyString.

Lemma handle_payload_good (r : Request) (st st' : Core.State) :
  goodState st -> goodState st' ->
  fst (handle r st) = fst (handle r st').
Proof using toLowerCase_empty.
  intros [_ Hco] [_ Hco'].
  destruct r as [|name section|query| |]; cbn [handle fst];
    try reflexivity.
  - unfold Core.getComponentDoc.
    destruct (Core.findEntry toLowerCase index name) as [entry|];
      [|reflexivity].
    destruct (negb (existsb _ (ComponentEntry.sections entry)));
      [reflexivity|].
    match goal with
    | |- context [Core.readFileWithCache _ _ ?p st] =>
        destruct (Core.readFileWithCache_coherent existsSync readFileSync
                    p st Hco) as [H1 _];
        destruct (Core.readFileWithCache_coherent existsSync readFileSync
                    p st' Hco') as [H2 _];
        destruct (Core.readFileWithCache existsSync readFileSync p st)
          as [[content|] st1];
        destruct (Core.readFileWithCache existsSync readFileSync p st')
          as [[content'|] st1']
    end; cbn [fst] in *; congruence.
  - unfold Core.searchComponents, Core.searchResults.
    destruct (Core.searchLoop_spec toLowerCase path_join existsSync
                readFileSync toLowerCase_empty DOCS_DIR (toLowerCase query)
                index [] st)
      as (traces & st1 & Hloop & _ & _ & Hspec).
    destruct (Core.searchLoop_spec toLowerCase path_join existsSync
                readFileSync toLowerCase_empty DOCS_DIR (toLowerCase query)
                index [] st')
      as (traces' & st1' & Hloop' & _ & _ & Hspec').
    destruct (Hspec Hco) as [Hfst _]. destruct (Hspec' Hco') as [Hfst' _].
    rewrite Hloop, Hloop'. cbn [app fst].
    rewrite !(Core.flat_map_through_map fst Core.optionToList), Hfst, Hfst'.
    now destruct (Z.of_nat _ =? 0)%Z.
Qed.

(** The cache is transparent: the payload that answers a request does
    not depend on the requests served before it. *)
Theorem server_answers_ignore_history
  (before before' : list Request) (r : Request) :
  fst (handle r (serve before initialState))
  = fst (handle r (serve before' initialState)).
Proof using toLowerCase_empty.
  apply handle_payload_good; apply serve_good; exact initialState_good.
Qed.

End Tools.

End Server.

(** ** A host: the builtins on ASCII text *)

Module Host.

Local Open Scope string_scope.

(** [toLowerCase] on one code unit: [A]..[Z] go to [a]..[z]. *)
Definition lowerChar (a : ascii) : ascii :=
  let n := nat_of_ascii a in
  if (65 <=? n)%nat && (n <=? 90)%nat then ascii_of_nat (n + 32) else a.

Fixpoint toLowerCase (s : string) : string :=
  match s with
  | EmptyString => EmptyString
  | String a s' => String (lowerChar a) (toLowerCase s')
  end.

(** [localeCompare] as the comparison of the code units, with which the
    host agrees on names made of lower-case ASCII letters. *)
Definition localeCompare (a b : string) : Z :=
  match String.compare a b with
  | Lt => -1
  | Eq => 0
  | Gt => 1
  end.

(** [path.join] on segments that are already normal. *)
Definition path_join (segments : list string) : string :=
  String.concat "/" segments.

(** A file system given by the list of its files. *)
Fixpoint lookupFile (files : list (string * string)) (filePath : string)
  : option string :=
  match files with
  | [] => None
  | (p, content) :: rest =>
      if p =? filePath then Some content else lookupFile rest filePath
  end.

Definition existsSync (files : list (string * string)) (filePath : string)
  : bool :=
  match lookupFile files filePath with Some _ => true | None => false end.

Definition readFileSync (files : list (string * string))
  (filePath : string) : string :=
  match lookupFile files filePath with
  | Some content => content
  | None => EmptyString
  end.

Lemma lowerChar_idem (a : ascii) : lowerChar (lowerChar a) = lowerChar a.
Proof.
  destruct a as [[] [] [] [] [] [] [] []]; vm_compute; reflexivity.
Qed.

Lemma toLowerCase_idem (s : string) :
  toLowerCase (toLowerCase s) = toLowerCase s.
Proof.
  induction s as [|a s IH]; simpl; [reflexivity|].
  now rewrite lowerChar_idem, IH.
Qed.

Lemma toLowerCase_empty : toLowerCase EmptyString = EmptyString.
Proof. reflexivity. Qed.

Lemma compare_not_Gt_trans (a b c : string) :
  String.compare a b <> Gt -> String.compare b c <> Gt ->
  String.compare a c <> Gt.
Proof.
  revert b c. induction a as [|x a IH]; intros [|y b] [|z c]; simpl;
    try congruence.
  unfold Ascii.compare.
  destruct (N.compare_spec (N_of_ascii x) (N_of_ascii y)) as [E1|L1|G1];
    destruct (N.compare_spec (N_of_ascii y) (N_of_ascii z)) as [E2|L2|G2];
    destruct (N.compare_spec (N_of_ascii x) (N_of_ascii z)) as [E3|L3|G3];
    try congruence; try lia.
  apply IH.
Qed.

Lemma localeCompare_trans (a b c : string) :
  localeCompare a b <= 0 -> localeCompare b c <= 0 -> localeCompare a c <= 0.
Proof.
  unfold localeCompare. intros H1 H2.
  pose proof (compare_not_Gt_trans a b c) as T.
  destruct (String.compare a b); try lia;
    destruct (String.compare b c); try lia;
    destruct (String.compare a c); try lia;
    exfalso; apply T; congruence.
Qed.

Lemma localeCompare_total (a b : string) :
  0 < localeCompare a b -> localeCompare b a <= 0.
Proof.
  unfold localeCompare. rewrite (String.compare_antisym a b).
  destruct (String.compare b a); simpl; lia.
Qed.

End Host.

(** ** The engines at work on a small documentation tree *)

Module Fixtures.

Local Open Scope string_scope.

Definition button : ComponentEntry.t :=
  ComponentEntry.mk "button" "Bouton" "Le bouton lance une action."
    "component" ["overview"; "code"].

Definition card : ComponentEntry.t :=
  ComponentEntry.mk "card" "Carte" "La carte conduit vers une page."
    "component" ["overview"; "code"; "demo"].

Definition grid : ComponentEntry.t :=
  ComponentEntry.mk "grid" "Grille" "La grille structure la page."
    "layout" ["overview"].

Definition index : list ComponentEntry.t := [button; card; grid].

(** The overview of [card] is listed by the index and missing on disk. *)
Definition files : list (string * string) :=
  [("docs/component/button/overview.md", "Un clic suffit.");
   ("docs/component/button/code.md",
    "Classe fr-btn." ++ JS.nl ++ "Variante fr-btn--secondary.");
   ("docs/component/card/code.md",
    "Titre dans fr-card__title, lien fr-btn possible.");
   ("docs/component/card/demo.md", "Exemple avec fr-card__title.");
   ("docs/layout/grid/overview.md", "Conteneur fr-grid-row.")].

(** The state at start-up, [new LRUCache<string, string>(50)]. *)
Definition st0 : Core.State :=
  Core.mkState (LRUCache.mk string string [] 50) [].

Definition getComponentDoc :=
  Core.getComponentDoc Host.toLowerCase Host.path_join
    (Host.existsSync files) (Host.readFileSync files).

Definition searchResults :=
  Core.searchResults Host.toLowerCase Host.path_join
    (Host.existsSync files) (Host.readFileSync files).

Definition searchComponents :=
  Core.searchComponents Host.toLowerCase Host.path_join
    (Host.existsSync files) (Host.readFileSync files).

Definition download : IconEntry.t :=
  IconEntry.mk "download" "system" ["fill"; "line"]
    ["fr-icon-download-fill"; "fr-icon-download-line"].

Definition fileDownload : IconEntry.t :=
  IconEntry.mk "file-download" "document" ["fill"; "line"]
    ["fr-icon-file-download-fill"; "fr-icon-file-download-line"].

Definition downloadCloud : IconEntry.t :=
  IconEntry.mk "download-cloud" "system" ["fill"; "line"]
    ["fr-icon-download-cloud-fill"; "fr-icon-download-cloud-line"].

Definition arrowLeft : IconEntry.t :=
  IconEntry.mk "arrow-left" "arrows" ["fill"; "line"]
    ["fr-icon-arrow-left-fill"; "fr-icon-arrow-left-line"].

Definition italic : IconEntry.t :=
  IconEntry.mk "italic" "editor" [] ["fr-icon-italic"].

Definition icons : list IconEntry.t :=
  [fileDownload; downloadCloud; arrowLeft; download; italic].

Definition limitedIcons :=
  Core.limitedIcons Host.toLowerCase Host.localeCompare.

Definition colors : ColorsIndex.t :=
  ColorsIndex.mk
    [ColorDecisionToken.mk "$background-action-high-blue-france"
       "background" "Fond des actions" "$blue-france-sun-113"
       "$blue-france-625";
     ColorDecisionToken.mk "$text-action-high-blue-france"
       "text" "Texte des actions" "$blue-france-sun-113" "$blue-france-625";
     ColorDecisionToken.mk "$background-flat-error"
       "background" "Fond des erreurs" "$error-425" "$error-625";
     ColorDecisionToken.mk "$text-default-error"
       "text" "Texte des erreurs" "$error-425" "$error-625";
     ColorDecisionToken.mk "$artwork-major-blue-france"
       "artwork" "Trait des pictogrammes" "$blue-france-sun-113"
       "$blue-france-625"]
    [ColorFamily.mk "blue-france" "primaire"
       [("strong", ("$blue-france-sun-113", "$blue-france-625"))]]
    ["green-tilleul-verveine"].

(** The scenarios of the test suite of the repository. *)

Example search_by_content :
  fst (searchResults index "docs" "FR-BTN" st0) =
  [Core.contentResult button "code"
     "Classe fr-btn. Variante fr-btn--secondary.";
   Core.contentResult card "code"
     "Titre dans fr-card__title, lien fr-btn possible."].
Proof. reflexivity. Qed.

Example search_by_metadata :
  fst (searchResults index "docs" "BOUTON" st0) = [Core.metadataResult button].
Proof. reflexivity. Qed.

Example doc_is_cached :
  LRUCache.map string string
    (Core.cache (snd (getComponentDoc index "docs" "Button" "code" st0)))
  = [("docs/component/button/code.md",
      "Classe fr-btn." ++ JS.nl ++ "Variante fr-btn--secondary.")].
Proof. reflexivity. Qed.

(** The excerpt keeps 80 code units on each side of the match, marks
    the cuts and flattens the line feeds. *)
Example excerpt_window :
  let pad := "0123456789" in
  let pad80 :=
    String.concat EmptyString [pad; pad; pad; pad; pad; pad; pad; pad] in
  let content := "ab" ++ pad80 ++ "fr-btn" ++ JS.nl ++ pad80 ++ "yz" in
  Core.excerptAt content "fr-btn" (JS.indexOf content "fr-btn")
  = "..." ++ pad80 ++ "fr-btn " ++ pad ++ pad ++ pad ++ pad ++ pad ++ pad
    ++ pad ++ "012345678" ++ "...".
Proof. reflexivity. Qed.

Example icons_exact_first :
  List.map (fun p => IconEntry.name (fst p))
    (limitedIcons icons "download" None)
  = ["download"; "download-cloud"; "file-download"].
Proof. reflexivity. Qed.

Example icons_by_category :
  List.map (fun p => IconEntry.name (fst p))
    (limitedIcons icons "arrow" (Some "arrows"))
  = ["arrow-left"].
Proof. reflexivity. Qed.

(** The properties above, on this tree. *)

Lemma index_lower_case :
  Forall (fun e => Host.toLowerCase (ComponentEntry.name e)
                   = ComponentEntry.name e) index.
Proof. repeat constructor. Qed.

Lemma st0_coherent :
  Core.coherent (Host.existsSync files) (Host.readFileSync files)
    (Core.cache st0).
Proof. constructor. Qed.

(** C4 (amended), on the query [FR-BTN] and the cache of start-up: no
    metadata holds it; [button] answers by its section [code], after
    [overview] was read; [card] by its section [code], after its missing
    overview; [grid] does not answer. *)
Lemma C4_witness :
  fst (searchResults index "docs" "FR-BTN" st0) =
  [SearchResult.mk "button" "Bouton" "component" "content (code)"
     "Classe fr-btn. Variante fr-btn--secondary.";
   SearchResult.mk "card" "Carte" "component" "content (code)"
     "Titre dans fr-card__title, lien fr-btn possible."]
  /\ (List.length (fst (searchResults index "docs" "FR-BTN" st0)) <= 3)%nat.
Proof.
  pose proof (Core.C4_one_result_per_entry Host.toLowerCase Host.path_join
                (Host.existsSync files) (Host.readFileSync files)
                Host.toLowerCase_empty index "docs" "FR-BTN" st0) as H.
  cbv zeta in H. destruct H as (_ & _ & Hlen & Hco & _).
  split; [|exact Hlen].
  unfold searchResults. rewrite (proj1 (Hco st0_coherent)). reflexivity.
Defined.

(** C4 as stated fails on a cache that holds a text which is not the
    text of the file.  The index is [grid] alone and the query [fr-btn]:
    neither the name, the title nor the description of [grid] holds it,
    and the file of its one section does not hold it either, so that the
    entry should contribute nothing.  The cache, filled by one [set],
    holds another text for the path of that section; the search reads
    the section from the cache and answers with a content result. *)
Lemma C4_counterexample :
  let filePath := "docs/layout/grid/overview.md" in
  let st :=
    Core.mkState
      (LRUCache.set string string string_dec filePath "Lien fr-btn."
         (LRUCache.mk string string [] 50))
      [] in
  JS.includes (Host.toLowerCase (ComponentEntry.name grid)) "fr-btn" = false
  /\ JS.includes (Host.toLowerCase (ComponentEntry.title grid)) "fr-btn"
     = false
  /\ JS.includes (Host.toLowerCase (ComponentEntry.description grid))
       "fr-btn" = false
  /\ ComponentEntry.sections grid = ["overview"]
  /\ Host.path_join ["docs"; ComponentEntry.category grid;
                     ComponentEntry.name grid; "overview" ++ ".md"]
     = filePath
  /\ Host.existsSync files filePath = true
  /\ Host.readFileSync files filePath = "Conteneur fr-grid-row."
  /\ JS.includes (Host.toLowerCase "Conteneur fr-grid-row.") "fr-btn" = false
  /\ fst (searchResults [grid] "docs" "fr-btn" st)
     = [SearchResult.mk "grid" "Grille" "layout" "content (overview)"
          "Lien fr-btn."].
Proof. repeat split. Qed.

(** C5, on the query [DOWNLOAD]: [file-download] comes third, and
    [download], the exact match, before it. *)
Lemma C5_witness :
  exists i, (i < 2)%nat
            /\ nth_error (limitedIcons icons "DOWNLOAD" None) i
               = Some (download, 3).
Proof.
  pose proof (Core.C5_icon_ranking Host.toLowerCase Host.localeCompare
                Host.localeCompare_trans Host.localeCompare_total
                icons "DOWNLOAD" None) as H.
  cbv zeta in H. destruct H as (_ & _ & _ & _ & Hfirst).
  apply (Hfirst download (fileDownload, 1) 2%nat).
  - simpl. tauto.
  - reflexivity.
  - reflexivity.
  - discriminate.
Defined.

(** C6, on the names [BUTTON] and [button]. *)
Lemma C6_witness :
  getComponentDoc index "docs" "button" "code" st0
  = getComponentDoc index "docs" "BUTTON" "code" st0.
Proof.
  pose proof (Core.C6_lookup_ignores_case Host.toLowerCase Host.path_join
                (Host.existsSync files) (Host.readFileSync files)
                Host.toLowerCase_idem index "docs" "BUTTON" "code" st0
                index_lower_case) as H.
  destruct H as (_ & Hsame & _). apply Hsame. discriminate.
Defined.

(** C6 as stated fails on a name that selects no entry: the index is in
    lower case, and the payloads for [Tab] and for [tab] differ, each
    quoting the query as given. *)
Lemma C6_counterexample :
  Forall (fun e => Host.toLowerCase (ComponentEntry.name e)
                   = ComponentEntry.name e) index
  /\ Host.toLowerCase "Tab" = "tab"
  /\ fst (getComponentDoc index "docs" "Tab" "code" st0)
     = Core.textResult (Core.notFoundText "Tab" [])
  /\ fst (getComponentDoc index "docs" "tab" "code" st0)
     = Core.textResult (Core.notFoundText "tab" [])
  /\ fst (getComponentDoc index "docs" "Tab" "code" st0)
     <> fst (getComponentDoc index "docs" "tab" "code" st0).
Proof.
  split; [exact index_lower_case|].
  repeat split. discriminate.
Qed.

(** C7, on the name [butto]. *)
Lemma C7_witness :
  getComponentDoc index "docs" "butto" "code" st0
  = (Core.textResult
       ("Composant " ++ JS.dq ++ "butto" ++ JS.dq
        ++ " non trouvé. Suggestions : button (Bouton)" ++ JS.nl
        ++ "Utilisez list_components pour voir la liste complète."),
     st0).
Proof.
  refine (proj2 (Core.C7_not_found_payload Host.toLowerCase Host.path_join
                   (Host.existsSync files) (Host.readFileSync files)
                   index "docs" "butto" "code" st0 _)).
  repeat constructor; discriminate.
Defined.

(** C8, on [button], which has no section [demo], and on [card], whose
    overview is listed and missing on disk. *)
Lemma C8_witness :
  getComponentDoc index "docs" "button" "demo" st0
  = (Core.textResult
       ("Section " ++ JS.dq ++ "demo" ++ JS.dq
        ++ " non disponible pour button (Bouton)."
        ++ " Sections disponibles : overview, code"),
     st0)
  /\ fst (getComponentDoc index "docs" "card" "overview" st0)
     = Core.textResult
         ("Section " ++ JS.dq ++ "overview" ++ JS.dq
          ++ " non disponible pour card (Carte)."
          ++ " Sections disponibles : overview, code, demo").
Proof.
  split.
  - refine (proj1 (Core.C8_unavailable_section_payload Host.toLowerCase
                     Host.path_join (Host.existsSync files)
                     (Host.readFileSync files)
                     index "docs" "button" "demo" st0 button _) _).
    + reflexivity.
    + simpl. intros [H|[H|[]]]; discriminate.
  - refine (proj2 (Core.C8_unavailable_section_payload Host.toLowerCase
                     Host.path_join (Host.existsSync files)
                     (Host.readFileSync files)
                     index "docs" "card" "overview" st0 card _) _ _).
    + reflexivity.
    + simpl. tauto.
    + reflexivity.
Defined.

(** C9, on the context [background]. *)
Lemma C9_witness :
  Forall (fun t => ColorDecisionToken.context t = "background")
    (Core.filterTokens Host.toLowerCase colors (Some "background") None None)
  /\ List.map ColorDecisionToken.token
       (Core.filterTokens Host.toLowerCase colors (Some "background")
          None None)
     = ["$background-action-high-blue-france"; "$background-flat-error"].
Proof.
  split; [|reflexivity].
  refine (proj1 (Core.C9_context_filter_is_exact Host.toLowerCase colors
                   "background" None None _)).
  discriminate.
Defined.

(** C10, on the empty query. *)
Lemma C10_witness :
  searchComponents index "docs" EmptyString st0
  = (Core.textResult
       (Core.resultsText EmptyString
          [Core.metadataResult button; Core.metadataResult card;
           Core.metadataResult grid]),
     st0).
Proof.
  refine (proj1 (proj2 (proj2 (proj2
            (Core.C10_empty_query_matches_all Host.toLowerCase
               Host.path_join (Host.existsSync files)
               (Host.readFileSync files) Host.toLowerCase_empty
               index "docs" st0 _))))).
  discriminate.
Defined.

(** The further properties, on this tree. *)

Definition st0_reached : Core.cacheReached 50 st0 :=
  ex_intro _ (LRUCache.mk string string [] 50)
    (ex_intro _ [] (conj eq_refl eq_refl)).

Lemma read_result_is_cached_witness :
  let read :=
    Core.readFileWithCache (Host.existsSync files) (Host.readFileSync files)
      "docs/component/card/demo.md" in
  fst (read (snd (read st0))) = Some "Exemple avec fr-card__title.".
Proof.
  intros read.
  apply (proj1 (Core.read_result_is_cached (Host.existsSync files)
                  (Host.readFileSync files) 50
                  "docs/component/card/demo.md" st0 st0_reached)
           "Exemple avec fr-card__title.").
  reflexivity.
Defined.

Lemma doc_payload_witness :
  fst (getComponentDoc index "docs" "Button" "code" st0)
  = Core.textResult
      ("# Bouton — code" ++ JS.nl ++ JS.nl ++ "Classe fr-btn." ++ JS.nl
       ++ "Variante fr-btn--secondary.").
Proof.
  refine (proj1 (Core.doc_payload Host.toLowerCase Host.path_join
                   (Host.existsSync files) (Host.readFileSync files)
                   index "docs" "Button" "code"
                   ("Classe fr-btn." ++ JS.nl
                    ++ "Variante fr-btn--secondary.")
                   st0 button _ _ st0_coherent _)).
  - reflexivity.
  - simpl. tauto.
  - reflexivity.
Defined.

Lemma colors_summary_witness :
  exists contexts,
    NoDup contexts
    /\ (forall c, In c contexts
                  <-> exists t, In t (ColorsIndex.decisionTokens colors)
                                /\ ColorDecisionToken.context t = c).
Proof.
  destruct (Core.colors_summary Host.toLowerCase colors None
              (Some EmptyString) None eq_refl eq_refl eq_refl)
    as (contexts & Hnd & Hin & _).
  exists contexts. now split.
Defined.

(** A path in the cache is answered without the file system, here with
    a text that no file holds. *)
Lemma cache_hit_skips_file_system_witness :
  let st :=
    Core.mkState
      (LRUCache.mk string string [("docs/a.md", "texte en cache")] 50) [] in
  Core.readFileWithCache (Host.existsSync files) (Host.readFileSync files)
    "docs/a.md" st
  = Core.readFileWithCache (Host.existsSync []) (Host.readFileSync [])
      "docs/a.md" st.
Proof.
  intros st.
  apply (proj2 (Core.cache_hit_skips_file_system
                  (Host.existsSync files) (Host.existsSync [])
                  (Host.readFileSync files) (Host.readFileSync [])
                  "docs/a.md" "texte en cache" st eq_refl)).
Defined.

Lemma cached_search_agrees_witness :
  fst (searchComponents index "docs" "fr-btn" st0)
  = Direct.searchComponents Host.toLowerCase Host.path_join
      (Host.existsSync files) (Host.readFileSync files) index "docs"
      "fr-btn".
Proof.
  apply (Direct.cached_search_agrees Host.toLowerCase Host.path_join
           (Host.existsSync files) (Host.readFileSync files) index "docs"
           Host.toLowerCase_empty "fr-btn" st0 st0_coherent).
Defined.

Lemma cached_doc_agrees_witness :
  fst (getComponentDoc index "docs" "button" "code" st0)
  = Direct.getComponentDoc Host.toLowerCase Host.path_join
      (Host.existsSync files) (Host.readFileSync files) index "docs"
      "button" "code".
Proof.
  refine (proj1 (Direct.cached_doc_agrees Host.toLowerCase Host.path_join
                   (Host.existsSync files) (Host.readFileSync files)
                   index "docs" "button" "code" st0 st0_coherent) _).
  intros entry [= <-]. simpl. tauto.
Defined.

(** A stand-in for [JSON.stringify]: the names, separated by commas. *)
Definition namesOnly (l : list ComponentEntry.t) : string :=
  JS.join "," (List.map ComponentEntry.name l).

Definition handle :=
  Server.handle Host.toLowerCase Host.localeCompare Host.path_join
    (Host.existsSync files) (Host.readFileSync files) namesOnly
    "docs" index icons colors.

Definition serve :=
  Server.serve Host.toLowerCase Host.localeCompare Host.path_join
    (Host.existsSync files) (Host.readFileSync files) namesOnly
    "docs" index icons colors.

Lemma server_answers_ignore_history_witness :
  fst (handle (Server.get_component_doc "button" None)
         (serve [Server.search_components "fr-btn";
                 Server.get_component_doc "card" (Some "demo")]
            Server.initialState))
  = fst (handle (Server.get_component_doc "button" None)
           (serve [] Server.initialState)).
Proof.
  apply (Server.server_answers_ignore_history Host.toLowerCase
           Host.localeCompare Host.path_join
           (Host.existsSync files) (Host.readFileSync files) namesOnly
           "docs" index icons colors Host.toLowerCase_empty).
Defined.

End Fixtures.
